(** * Verification of the shunting-yard expression evaluator (Expression.h)

    A shallow embedding of the [Expression] class: the tokenizer
    ([checkParenthesis], [getTokens]), the symbol classifier
    ([getNumber], [isFunction], [isOperator], [isVariable], ...), the
    shunting-yard converter ([getRPN]) and the postfix evaluator
    ([evalRPN], [eval]).

    C++ [double] is IEEE-754 binary64 and is modelled by Rocq's primitive
    [float]; [std::string] by [string]; [std::vector] and [std::stack] by
    [list] (the head of a list is the top of a stack). *)

From Stdlib Require Import ZArith List String Ascii Bool Lia Permutation.
From Stdlib Require Import PrimFloat SpecFloat FloatOps FloatAxioms.
Import ListNotations.

Local Open Scope string_scope.
Local Open Scope list_scope.
Local Open Scope Z_scope.

(** ** The C library

    [strtod] and the default [operator<<(double)] of an output stream are
    not code of the repository.  They are modelled here from the C and C++
    standards (C locale, round-to-nearest): [strtod] is correctly rounded,
    and a stream prints a [double] as [printf("%g")] does, with the default
    precision 6. *)
Module CLib.

Definition code (c : ascii) : Z := Z.of_nat (nat_of_ascii c).

Definition isspace (c : ascii) : bool :=
  (code c =? 32) || ((9 <=? code c) && (code c <=? 13)).

Definition isdigit (c : ascii) : bool := (48 <=? code c) && (code c <=? 57).

Definition tolower (c : ascii) : ascii :=
  if (65 <=? code c) && (code c <=? 90)
  then ascii_of_nat (nat_of_ascii c + 32) else c.

Definition isalpha (c : ascii) : bool :=
  (97 <=? code (tolower c)) && (code (tolower c) <=? 122).

(** Value of a hexadecimal digit. *)
Definition xdigit (c : ascii) : option Z :=
  if isdigit c then Some (code c - 48)
  else if (97 <=? code (tolower c)) && (code (tolower c) <=? 102)
       then Some (code (tolower c) - 87)
       else None.

(** The C string a [std::string] hands to the C library through
    [c_str()]: the characters before the first NUL. *)
Fixpoint c_str (s : string) : string :=
  match s with
  | EmptyString => EmptyString
  | String c s' => if code c =? 0 then EmptyString else String c (c_str s')
  end.

(** *** Correct rounding of a rational to a binary format *)

(** [n / d] rounded to nearest-even in the format ([prec], [emax]);
    [0 <= n], [0 < d]. *)
Definition round_ratio (prec emax : Z) (sx : bool) (n d : Z) : spec_float :=
  match n with
  | Z0 => S754_zero sx
  | _ =>
      let '(q, e, l) := SFdiv_core_binary prec emax n 0 d 0 in
      binary_round_aux prec emax sx q e l
  end.

(** [m * 10 ^ e10] rounded to nearest-even. *)
Definition round_decimal (prec emax : Z) (sx : bool) (m e10 : Z) : spec_float :=
  if 0 <=? e10 then round_ratio prec emax sx (m * 10 ^ e10) 1
  else round_ratio prec emax sx m (10 ^ (- e10)).

(** [m * 2 ^ e2] rounded to nearest-even. *)
Definition round_binary (prec emax : Z) (sx : bool) (m e2 : Z) : spec_float :=
  match m with
  | Zpos p => binary_round prec emax sx p e2
  | _ => S754_zero sx
  end.

(** A decimal literal with the suffix [f]: rounded to binary32, then
    widened (exactly) to [double]. *)
Definition float_literal (m e10 : Z) : float :=
  SF2Prim (round_decimal 24 128 false m e10).

(** *** strtod *)

Fixpoint skip_space (s : string) : string :=
  match s with
  | String c s' => if isspace c then skip_space s' else s
  | EmptyString => s
  end.

(** An optional sign: [true] for a minus. *)
Definition take_sign (s : string) : bool * string :=
  match s with
  | String "+"%char s' => (false, s')
  | String "-"%char s' => (true, s')
  | _ => (false, s)
  end.

(** Reads decimal digits onto the accumulator [acc]; returns the new
    accumulator, the number of digits read and the unread rest. *)
Fixpoint take_digits (s : string) (acc : Z) (n : Z) : Z * Z * string :=
  match s with
  | String c s' =>
      if isdigit c then take_digits s' (10 * acc + (code c - 48)) (n + 1)
      else (acc, n, s)
  | EmptyString => (acc, n, s)
  end.

Fixpoint take_xdigits (s : string) (acc : Z) (n : Z) : Z * Z * string :=
  match s with
  | String c s' =>
      match xdigit c with
      | Some d => take_xdigits s' (16 * acc + d) (n + 1)
      | None => (acc, n, s)
      end
  | EmptyString => (acc, n, s)
  end.

(** An optional exponent part: the marker [mark] (in either case), an
    optional sign and at least one decimal digit.  Without a digit the
    marker is not consumed. *)
Definition take_exponent (mark : ascii) (s : string) : Z * string :=
  match s with
  | String c s1 =>
      if Ascii.eqb (tolower c) mark then
        let '(neg, s2) := take_sign s1 in
        let '(e, n, s3) := take_digits s2 0 0 in
        if 0 <? n then (if neg then - e else e, s3) else (0, s)
      else (0, s)
  | EmptyString => (0, s)
  end.

(** Digits with an optional radix point; [take] reads the digits of the
    base.  Returns the digits as one integer, the number of digits
    after the point, and the rest; [None] when there is no digit. *)
Definition take_mantissa (take : string -> Z -> Z -> Z * Z * string)
           (s : string) : option (Z * Z * string) :=
  let '(ip, n1, s1) := take s 0 0 in
  match s1 with
  | String "."%char s2 =>
      let '(m, n2, s3) := take s2 ip 0 in
      if 0 <? n1 + n2 then Some (m, n2, s3) else None
  | _ => if 0 <? n1 then Some (ip, 0, s1) else None
  end.

Definition parse_decimal (sx : bool) (s : string) : option (spec_float * string) :=
  match take_mantissa take_digits s with
  | Some (m, frac, s1) =>
      let '(e, s2) := take_exponent "e" s1 in
      Some (round_decimal prec emax sx m (e - frac), s2)
  | None => None
  end.

Definition parse_hex (sx : bool) (s : string) : option (spec_float * string) :=
  match s with
  | String "0"%char (String x s0) =>
      if Ascii.eqb (tolower x) "x" then
        match take_mantissa take_xdigits s0 with
        | Some (m, frac, s1) =>
            let '(e, s2) := take_exponent "p" s1 in
            Some (round_binary prec emax sx m (e - 4 * frac), s2)
        | None => None
        end
      else None
  | _ => None
  end.

(** [lit] (lower case) is a prefix of [s], ignoring case: the rest. *)
Fixpoint prefix_ci (lit s : string) : option string :=
  match lit, s with
  | EmptyString, _ => Some s
  | String a lit', String c s' =>
      if Ascii.eqb a (tolower c) then prefix_ci lit' s' else None
  | String _ _, EmptyString => None
  end.

(** The optional [(n-char-sequence)] after [nan]. *)
Fixpoint skip_nchars (s : string) : string :=
  match s with
  | String c s' =>
      if isdigit c || isalpha c || Ascii.eqb c "_" then skip_nchars s' else s
  | EmptyString => s
  end.

Definition parse_special (sx : bool) (s : string) : option (spec_float * string) :=
  match prefix_ci "inf" s with
  | Some s1 =>
      match prefix_ci "inity" s1 with
      | Some s2 => Some (S754_infinity sx, s2)
      | None => Some (S754_infinity sx, s1)
      end
  | None =>
      match prefix_ci "nan" s with
      | Some s1 =>
          match s1 with
          | String "("%char s2 =>
              match skip_nchars s2 with
              | String ")"%char s3 => Some (S754_nan, s3)
              | _ => Some (S754_nan, s1)
              end
          | _ => Some (S754_nan, s1)
          end
      | None => None
      end
  end.

(** [strtod nptr]: the value, and the unread rest of the string, from
    [endptr] on.  When no conversion is performed the value is zero and
    [endptr] is [nptr]. *)
Definition strtod (nptr : string) : float * string :=
  let '(sx, s) := take_sign (skip_space nptr) in
  let r :=
    match parse_special sx s with
    | Some r => Some r
    | None =>
        match parse_hex sx s with
        | Some r => Some r
        | None => parse_decimal sx s
        end
    end in
  match r with
  | Some (v, rest) => (SF2Prim v, rest)
  | None => (zero, nptr)
  end.

(** *** printf("%g") at precision 6, the default format of a stream *)

Definition digit_char (d : Z) : ascii := ascii_of_nat (Z.to_nat (48 + d)).

(** The [w] low decimal digits of [z], most significant first. *)
Fixpoint fixed_digits (w : nat) (z : Z) : string :=
  match w with
  | O => EmptyString
  | S w' => (fixed_digits w' (z / 10) ++ String (digit_char (z mod 10)) "")%string
  end.

(** [n / d] rounded to the nearest integer, ties to even. *)
Definition div_nearest_even (n d : Z) : Z :=
  let q := n / d in
  let r := n mod d in
  match 2 * r ?= d with
  | Lt => q
  | Gt => q + 1
  | Eq => if Z.even q then q else q + 1
  end.

(** [10 ^ x <= n / d], for [0 < n] and [0 < d]. *)
Definition pow10_le (n d x : Z) : bool :=
  if 0 <=? x then 10 ^ x * d <=? n else d <=? n * 10 ^ (- x).

(** The largest [x <= hi] with [10 ^ x <= n / d], searched downwards. *)
Fixpoint exp10_from (fuel : nat) (n d hi : Z) : Z :=
  match fuel with
  | O => hi
  | S fuel' => if pow10_le n d hi then hi else exp10_from fuel' n d (hi - 1)
  end.

(** The decimal exponent of a positive [double] [n / d]: within
    [-324 .. 308]. *)
Definition exp10 (n d : Z) : Z := exp10_from 700 n d 320.

(** [n / d] to six significant digits: the digits as an integer in
    [100000 .. 999999] and the decimal exponent of the first one. *)
Definition six_digits (n d : Z) : Z * Z :=
  let x := exp10 n d in
  let q := if 0 <=? x - 5 then div_nearest_even n (d * 10 ^ (x - 5))
           else div_nearest_even (n * 10 ^ (5 - x)) d in
  if q =? 1000000 then (100000, x + 1) else (q, x).

Fixpoint strip_zeros_rev (s : list ascii) : list ascii :=
  match s with
  | "0"%char :: s' => strip_zeros_rev s'
  | _ => s
  end.

(** Removes the trailing zeros of a fraction. *)
Definition strip_zeros (s : string) : string :=
  string_of_list_ascii (rev (strip_zeros_rev (rev (list_ascii_of_string s)))).

Definition with_fraction (int frac : string) : string :=
  match strip_zeros frac with
  | EmptyString => int
  | f => (int ++ "." ++ f)%string
  end.

Fixpoint zeros (k : nat) : string :=
  match k with
  | O => EmptyString
  | S k' => String "0" (zeros k')
  end.

(** The exponent of the scientific style: a sign and at least two
    digits. *)
Definition fmt_exponent (x : Z) : string :=
  let sign := if x <? 0 then "-" else "+" in
  let ds := if Z.abs x <? 100 then fixed_digits 2 (Z.abs x)
            else fixed_digits 3 (Z.abs x) in
  ("e" ++ sign ++ ds)%string.

(** A positive finite value [n / d] in style [%g], precision 6. *)
Definition fmt_positive (n d : Z) : string :=
  let '(q, x) := six_digits n d in
  let ds := fixed_digits 6 q in
  if (x <? -4) || (6 <=? x) then
    (with_fraction (substring 0 1 ds) (substring 1 5 ds) ++ fmt_exponent x)%string
  else if 0 <=? x then
    with_fraction (substring 0 (Z.to_nat (x + 1)) ds)
                  (substring (Z.to_nat (x + 1)) 6 ds)
  else
    with_fraction "0" (zeros (Z.to_nat (- x - 1)) ++ ds)%string.

Definition fmt_sign (s : bool) : string := if s then "-" else "".

(** [os << val] for a [double] on a stream with default flags. *)
Definition fmt_double (val : float) : string :=
  match Prim2SF val with
  | S754_nan => "nan"
  | S754_infinity s => (fmt_sign s ++ "inf")%string
  | S754_zero s => (fmt_sign s ++ "0")%string
  | S754_finite s m e =>
      let body := if 0 <=? e then fmt_positive (Zpos m * 2 ^ e) 1
                  else fmt_positive (Zpos m) (2 ^ (- e)) in
      (fmt_sign s ++ body)%string
  end.

End CLib.

(** ** The math library

    [sin], [cos], [tan], [log], [log10], [exp], [sqrt], [abs] and [pow] come
    from the C math library.  The development is parametric in them: the
    theorems hold for every such library, and where a numeric value
    depends on [pow] the needed values of [pow] are stated.  [c_abs] is
    whichever function the unqualified call [abs(x)] of the source
    resolves to. *)
Class Libm := {
  c_sin : float -> float;
  c_cos : float -> float;
  c_tan : float -> float;
  c_log : float -> float;
  c_log10 : float -> float;
  c_exp : float -> float;
  c_sqrt : float -> float;
  c_abs : float -> float;
  c_pow : float -> float -> float
}.

(** ** std::string operations used by the class *)

(** [text.erase(std::remove(text.begin(), text.end(), c), text.end())] *)
Fixpoint remove_char (c : ascii) (s : string) : string :=
  match s with
  | EmptyString => EmptyString
  | String a s' => if Ascii.eqb a c then remove_char c s' else String a (remove_char c s')
  end.

(** [chars] contains [c]. *)
Fixpoint mem_char (c : ascii) (chars : string) : bool :=
  match chars with
  | EmptyString => false
  | String a chars' => Ascii.eqb a c || mem_char c chars'
  end.

(** [text.find_first_of(chars, pos)]; [None] is [string::npos]. *)
Fixpoint find_first_of (text chars : string) (pos : nat) : option nat :=
  match text with
  | EmptyString => None
  | String c rest =>
      match pos with
      | O => if mem_char c chars then Some O
             else option_map S (find_first_of rest chars O)
      | S pos' => option_map S (find_first_of rest chars pos')
      end
  end.

(** [text.substr(pos, n)], for [pos <= text.length()] (beyond that the
    C++ call throws; the tokenizer never does so).  It is [substring] of
    the standard library: at most [n] characters from [pos]. *)
Definition substr (text : string) (pos n : nat) : string := substring pos n text.

(** [text.substr(pos, string::npos)]: the rest of the text from [pos]. *)
Definition substr_npos (text : string) (pos : nat) : string :=
  substring pos (String.length text) text.

(** [text[pos]] as the one-character string [std::string(1, text[pos])]. *)
Definition char_at (text : string) (pos : nat) : string :=
  match String.get pos text with
  | Some c => String c EmptyString
  | None => EmptyString
  end.

(** ** Data *)

(** [struct CustomFunction { string name; function<double(double)> f; }] *)
Module CustomFunction.
Record t := mk { name : string; f : float -> float }.
End CustomFunction.

(** [struct Variable { string name; double val; }] *)
Module Var.
Record t := mk { name : string; val : float }.
End Var.

(** The private members of [class Expression]. *)
Record Expression := {
  text : string;
  functions : list CustomFunction.t;
  tokens : list string;
  tokensStr : string;
  rpn : list string;
  rpnStr : string;
  balanced : bool
}.

(** [int] is 32 bits wide.  The C++ standard leaves the overflow of a
    signed [int] undefined; two's-complement wrap-around, as the usual
    targets do it, is what is modelled. *)
Definition wrap_int (z : Z) : Z := (z + 2 ^ 31) mod 2 ^ 32 - 2 ^ 31.

(** The constant [NAN]. *)
Definition NAN : float := nan.

(** The literal [-1.0]. *)
Definition minus_one : float := PrimFloat.opp 1%float.

Section ExpressionClass.

Context {libm : Libm}.

(** *** Defaults *)

Definition defaultFunctions : list CustomFunction.t :=
  [ CustomFunction.mk "sin" c_sin;
    CustomFunction.mk "cos" c_cos;
    CustomFunction.mk "tan" c_tan;
    CustomFunction.mk "ln" c_log;
    CustomFunction.mk "log" c_log10;
    CustomFunction.mk "exp" c_exp;
    CustomFunction.mk "sqrt" c_sqrt;
    CustomFunction.mk "abs" c_abs ].

(** [{"pi", 3.141592654f}, {"e", 2.718281828f}] *)
Definition defaultVariables : list Var.t :=
  [ Var.mk "pi" (CLib.float_literal 3141592654 (-9));
    Var.mk "e" (CLib.float_literal 2718281828 (-9)) ].

(** *** Parentheses *)

(** The loop of [checkParenthesis] from position [pos] on, [rest] being
    the text from [pos]; returns the final [cnt]. *)
Fixpoint checkParenthesis_loop (rest : string) (cnt : Z) : Z :=
  match rest with
  | EmptyString => cnt
  | String c rest' =>
      if 0 <=? cnt then
        if Ascii.eqb c "(" then checkParenthesis_loop rest' (wrap_int (cnt + 1))
        else if Ascii.eqb c ")" then checkParenthesis_loop rest' (wrap_int (cnt - 1))
        else checkParenthesis_loop rest' cnt
      else cnt
  end.

Definition checkParenthesis (text : string) : bool :=
  checkParenthesis_loop text 0 =? 0.

(** *** Symbol classifier *)

Definition isOperator (str : string) : bool :=
  (str =? "+")%string || (str =? "-")%string || (str =? "*")%string
  || (str =? "/")%string || (str =? "^")%string || (str =? "~")%string.

Definition isNumber (str : string) : bool :=
  match snd (CLib.strtod (CLib.c_str str)) with
  | EmptyString => true
  | _ => false
  end.

Definition isLeftAssociative (str : string) : bool :=
  (str =? "+")%string || (str =? "-")%string || (str =? "*")%string
  || (str =? "/")%string.

Definition isBinaryOperator (str : string) : bool :=
  (str =? "+")%string || (str =? "-")%string || (str =? "*")%string
  || (str =? "/")%string || (str =? "^")%string.

Definition isUnaryOperator (str : string) : bool := (str =? "~")%string.

(** [getNumber(str, val)]: the returned flag and the value stored in
    [val] (stored whatever the flag). *)
Definition getNumber (str : string) : bool * float :=
  let str := match str with
             | String "~"%char rest => String "-"%char rest
             | _ => str
             end in
  let '(val, p) := CLib.strtod (CLib.c_str str) in
  (match p with EmptyString => true | _ => false end, val).

Definition numberToString (val : float) : string := CLib.fmt_double val.

Definition calculate (a b : float) (op : string) : float :=
  if (op =? "+")%string then (a + b)%float
  else if (op =? "-")%string then (a - b)%float
  else if (op =? "*")%string then (a * b)%float
  else if (op =? "/")%string then (a / b)%float
  else if (op =? "^")%string then c_pow a b
  else NAN.

Definition calculateUnary (x : float) (op : string) : float :=
  if (op =? "~")%string then (minus_one * x)%float else NAN.

Definition precedence (op : string) : Z :=
  if (op =? "+")%string || (op =? "-")%string then 1
  else if (op =? "*")%string || (op =? "/")%string then 2
  else if (op =? "^")%string || (op =? "~")%string then 3
  else 0.

(** The [for] loop of [isVariable]. *)
Fixpoint isVariable_loop (name : string) (vars : list Var.t) : option float :=
  match vars with
  | [] => None
  | v :: vars' =>
      if (Var.name v =? name)%string then Some (Var.val v)
      else if ("~" ++ Var.name v =? name)%string then Some (minus_one * Var.val v)%float
      else isVariable_loop name vars'
  end.

(** [isVariable(name, vars, val)]: [Some val] when it returns true. *)
Definition isVariable (name : string) (vars : list Var.t) : option float :=
  if isOperator name then None else isVariable_loop name vars.

(** [isFunction(name, func)] over the member [functions]: [Some func]
    when it returns true. *)
Fixpoint isFunction (functions : list CustomFunction.t) (name : string)
  : option (float -> float) :=
  match functions with
  | [] => None
  | f :: functions' =>
      if (CustomFunction.name f =? name)%string then Some (CustomFunction.f f)
      else isFunction functions' name
  end.

(** *** Tokenizer *)

(** The characters at which the text is split. *)
Definition specials : string := "()+-*/^~".

Definition push_nonempty (tokens : list string) (token : string) : list string :=
  match token with
  | EmptyString => tokens
  | _ => tokens ++ [token]
  end.

(** The [while] loop of [getTokens], from the state ([pos], [tokens]).
    Every iteration moves [pos] past a special character, so the loop
    runs at most [length text] times; [fuel] bounds the iterations and
    [None] means it ran out (see [getTokens_loop_fuel]). *)
Fixpoint getTokens_loop (fuel : nat) (text : string) (pos : nat)
         (tokens : list string) : option (list string) :=
  match find_first_of text specials pos with
  | Some nextPos =>
      match fuel with
      | O => None
      | S fuel' =>
          let opchar := char_at text nextPos in
          let token := substr text pos (nextPos - pos) in
          let tokens := push_nonempty tokens token in
          let tokens := tokens ++ [opchar] in
          getTokens_loop fuel' text (S nextPos) tokens
      end
  | None =>
      let token := substr_npos text pos in
      Some (push_nonempty tokens token)
  end.

(** [getTokens()] on the member [text]. *)
Definition getTokens (text : string) : list string :=
  if negb (checkParenthesis text) then []
  else match getTokens_loop (String.length text) text 0 [] with
       | Some tokens => tokens
       | None => []
       end.

(** *** Shunting yard *)

(** The condition of the [while] loop run for an operator [token]
    against the top [top] of the operator stack. *)
Definition pops (top token : string) : bool :=
  negb (top =? "(")%string
  && ((precedence token <? precedence top)
      || ((precedence top =? precedence token) && isLeftAssociative token)).

(** The [while] loop run for an operator [token]: pops operators into
    the output queue. *)
Fixpoint pop_operators (token : string) (rpn operators : list string)
  : list string * list string :=
  match operators with
  | top :: operators' =>
      if pops top token then pop_operators token (rpn ++ [top]) operators'
      else (rpn, operators)
  | [] => (rpn, operators)
  end.

(** The [while] loop run for a right parenthesis. *)
Fixpoint pop_to_paren (rpn operators : list string) : list string * list string :=
  match operators with
  | top :: operators' =>
      if negb (top =? "(")%string then pop_to_paren (rpn ++ [top]) operators'
      else (rpn, operators)
  | [] => (rpn, operators)
  end.

(** The final [while] loop: the stack is emptied into the output,
    left parentheses dropped. *)
Fixpoint pop_all (rpn operators : list string) : list string :=
  match operators with
  | op :: operators' =>
      if negb (op =? "(")%string then pop_all (rpn ++ [op]) operators'
      else pop_all rpn operators'
  | [] => rpn
  end.

Section WithFunctions.

(** The member [functions]. *)
Variable functions : list CustomFunction.t.

(** The body of the [for] loop of [getRPN] on one token. *)
Definition getRPN_step (st : list string * list string) (token : string)
  : list string * list string :=
  let '(rpn, operators) := st in
  let '(number, val) := getNumber token in
  if number then (rpn ++ [numberToString val], operators)
  else match isFunction functions token with
  | Some _ => (rpn, token :: operators)
  | None =>
  if isOperator token then
    let '(rpn, operators) := pop_operators token rpn operators in
    (rpn, token :: operators)
  else if (token =? "(")%string then (rpn, token :: operators)
  else if (token =? ")")%string then
    let '(rpn, operators) := pop_to_paren rpn operators in
    let operators :=
      match operators with
      | top :: operators' => if (top =? "(")%string then operators' else operators
      | [] => operators
      end in
    match operators with
    | top :: operators' =>
        match isFunction functions top with
        | Some _ => (rpn ++ [top], operators')
        | None => (rpn, operators)
        end
    | [] => (rpn, operators)
    end
  else (rpn ++ [token], operators)
  end.

(** The [for] loop of [getRPN] from the state ([rpn], [operators]). *)
Definition getRPN_loop (input : list string) (st : list string * list string)
  : list string * list string :=
  fold_left getRPN_step input st.

Definition getRPN (tokens : list string) : list string :=
  let '(rpn, operators) := getRPN_loop tokens ([], []) in
  pop_all rpn operators.

(** *** Postfix evaluation *)

(** The body of the [for] loop of [evalRPN] on one item: the new value
    stack, or [None] when the function returns [result] (which is
    [NAN]) from inside the loop. *)
Definition evalRPN_step (vars : list Var.t) (values : list float) (item : string)
  : option (list float) :=
  let '(number, val) := getNumber item in
  if number then Some (val :: values)
  else match isFunction functions item with
  | Some func =>
      match values with
      | [] => None
      | val :: values' => Some (func val :: values')
      end
  | None =>
  if isOperator item then
    if isBinaryOperator item && (2 <=? List.length values)%nat then
      match values with
      | b :: a :: values' => Some (calculate a b item :: values')
      | _ => Some values
      end
    else if isUnaryOperator item && (0 <? List.length values)%nat then
      match values with
      | val :: values' => Some (calculateUnary val item :: values')
      | [] => Some values
      end
    else Some values
  else match isVariable item vars with
  | Some val => Some (val :: values)
  | None => Some values
  end
  end.

(** The [for] loop of [evalRPN]. *)
Fixpoint evalRPN_loop (vars : list Var.t) (items : list string) (values : list float)
  : option (list float) :=
  match items with
  | [] => Some values
  | item :: items' =>
      match evalRPN_step vars values item with
      | Some values' => evalRPN_loop vars items' values'
      | None => None
      end
  end.

Definition evalRPN (rpn : list string) (vars : list Var.t) : float :=
  match evalRPN_loop vars rpn [] with
  | Some [result] => result
  | _ => NAN
  end.

End WithFunctions.

(** *** Construction and the evaluation entry points *)

(** The printable form: every token followed by a space. *)
Fixpoint join_tokens (ts : list string) : string :=
  match ts with
  | [] => EmptyString
  | t :: ts' => (t ++ " " ++ join_tokens ts')%string
  end.

(** [Expression(string exprText, vector<CustomFunction> funcs)] *)
Definition Expression_new (exprText : string) (funcs : list CustomFunction.t)
  : Expression :=
  let text := remove_char " " exprText in
  let tokens := getTokens text in
  let rpn := getRPN funcs tokens in
  {| text := text;
     functions := funcs;
     tokens := tokens;
     tokensStr := join_tokens tokens;
     rpn := rpn;
     rpnStr := join_tokens rpn;
     balanced := checkParenthesis text |}.

(** [Expression(string exprText)] *)
Definition Expression_of (exprText : string) : Expression :=
  Expression_new exprText defaultFunctions.

(** [eval(vector<Variable> vars)] *)
Definition eval_vars (this : Expression) (vars : list Var.t) : float :=
  evalRPN (functions this) (rpn this) vars.

(** [eval()] *)
Definition eval (this : Expression) : float :=
  eval_vars this defaultVariables.

(** The [for] loop of [eval(double val)]: assigns [val] to every
    variable named [x]; the flag is [updated]. *)
Fixpoint update_x (vars : list Var.t) (val : float) : list Var.t * bool :=
  match vars with
  | [] => ([], false)
  | v :: vars' =>
      let '(vars'', updated) := update_x vars' val in
      if (Var.name v =? "x")%string
      then (Var.mk (Var.name v) val :: vars'', true)
      else (v :: vars'', updated)
  end.

(** [eval(double val)] *)
Definition eval_x (this : Expression) (val : float) : float :=
  let '(vars, updated) := update_x defaultVariables val in
  let vars := if updated then vars else vars ++ [Var.mk "x" val] in
  eval_vars this vars.

End ExpressionClass.

(** ** Notions used to state the properties *)

(** Occurrences of [c] in [s]. *)
Fixpoint count_char (c : ascii) (s : string) : Z :=
  match s with
  | EmptyString => 0
  | String a s' => (if Ascii.eqb a c then 1 else 0) + count_char c s'
  end.

(** The parentheses of [text] are unbalanced: some left-to-right prefix
    has more [')'] than ['('], or the final counts differ. *)
Definition unbalanced (text : string) : Prop :=
  (exists n, count_char "(" (substring 0 n text) < count_char ")" (substring 0 n text))
  \/ count_char "(" text <> count_char ")" text.

(** [text] with every whitespace character deleted (not only the space). *)
Fixpoint remove_whitespace (s : string) : string :=
  match s with
  | EmptyString => EmptyString
  | String a s' =>
      if CLib.isspace a then remove_whitespace s' else String a (remove_whitespace s')
  end.

(** No entry of [vars] is named [name]. *)
Definition unnamed (name : string) (vars : list Var.t) : Prop :=
  forall v, In v vars -> Var.name v <> name.

(** The horizontal tab. *)
Definition TAB : ascii := "009"%char.

(** [s] has none of the characters of [chars]. *)
Fixpoint free_of (chars : string) (s : string) : bool :=
  match s with
  | EmptyString => true
  | String c s' => negb (mem_char c chars) && free_of chars s'
  end.

(** A plain word: not empty, without special character and without
    space. *)
Definition plain (s : string) : bool :=
  free_of specials s && free_of " " s && negb (s =? "")%string.

(** The scanning rule of the tokenizer, character by character: [cur]
    is the run of ordinary characters read since the last special
    character.  A special character ends the run, which is a token when
    it is not empty, and is a token of its own. *)
Fixpoint scan (rest cur : string) : list string :=
  match rest with
  | EmptyString => push_nonempty [] cur
  | String c rest' =>
      if mem_char c specials
      then push_nonempty [] cur ++ [String c EmptyString] ++ scan rest' EmptyString
      else scan rest' (cur ++ String c EmptyString)
  end.

(** [token] is an operand for the converter: a numeric literal, or a
    name that is no function of the table, no operator and no
    parenthesis. *)
Definition operand (funcs : list CustomFunction.t) (token : string) : Prop :=
  fst (getNumber token) = true
  \/ (isFunction funcs token = None /\ isOperator token = false
      /\ token <> "(" /\ token <> ")").

(** What the converter puts into the output for an operand. *)
Definition emitted (token : string) : string :=
  if fst (getNumber token) then numberToString (snd (getNumber token)) else token.

(** [token] is a plain word that the classifier takes for a variable,
    bound to [v] in [vars]. *)
Definition variable_token (funcs : list CustomFunction.t) (vars : list Var.t)
           (token : string) (v : float) : Prop :=
  plain token = true /\ fst (getNumber token) = false
  /\ isFunction funcs token = None /\ isVariable token vars = Some v.

(** The evaluator pushes [v] for the item [item], whatever the stack. *)
Definition pushes {libm : Libm} (funcs : list CustomFunction.t) (vars : list Var.t)
           (item : string) (v : float) : Prop :=
  forall values, evalRPN_step funcs vars values item = Some (v :: values).

(** *** Accessors *)

(** [isBalanced()] *)
Definition isBalanced (this : Expression) : bool := balanced this.

(** [str()] *)
Definition str (this : Expression) : string := tokensStr this.

(** [rpnstr()] *)
Definition rpnstr (this : Expression) : string := rpnStr this.

(** *** Shapes of tokens and of token sequences *)

(** The tokens one after the other, nothing in between. *)
Fixpoint concat_tokens (ts : list string) : string :=
  match ts with
  | [] => EmptyString
  | t :: ts' => (t ++ concat_tokens ts')%string
  end.

(** A token that is one special character. *)
Definition special_token (t : string) : bool :=
  match t with
  | String c EmptyString => mem_char c specials
  | _ => false
  end.

(** A token that is a non-empty run of ordinary characters. *)
Definition word (t : string) : bool :=
  free_of specials t && negb (t =? "")%string.

Definition starts_special (ts : list string) : bool :=
  match ts with
  | [] => true
  | t :: _ => special_token t
  end.

(** Every token is a special character or a word, and no two words are
    adjacent: the words are maximal runs. *)
Fixpoint separated (ts : list string) : bool :=
  match ts with
  | [] => true
  | t :: ts' =>
      (special_token t || (word t && starts_special ts')) && separated ts'
  end.

(** Neither ["("] nor [")"]. *)
Definition not_parenthesis (t : string) : bool :=
  negb (t =? "(")%string && negb (t =? ")")%string.

(** Well-formed postfix sequences over a function table and a variable
    list, with the value each denotes: an item that pushes a value; a
    sequence followed by [~]; two sequences followed by a binary
    operator; a sequence followed by a function name. *)
Inductive postfix {libm : Libm} (funcs : list CustomFunction.t) (vars : list Var.t)
  : list string -> float -> Prop :=
| postfix_item item v :
    pushes funcs vars item v -> postfix funcs vars [item] v
| postfix_negation p v :
    postfix funcs vars p v -> isFunction funcs "~" = None ->
    postfix funcs vars (p ++ ["~"]) (- v)%float
| postfix_binary p q a b op :
    postfix funcs vars p a -> postfix funcs vars q b ->
    isBinaryOperator op = true -> isFunction funcs op = None ->
    postfix funcs vars (p ++ q ++ [op]) (calculate a b op)
| postfix_function p v name func :
    postfix funcs vars p v ->
    fst (getNumber name) = false -> isFunction funcs name = Some func ->
    postfix funcs vars (p ++ [name]) (func v).

(** What the operator stack holds: no right parenthesis. *)
Definition no_right (operators : list string) : Prop :=
  Forall (fun t => t <> ")") operators.

(** [op] is a binary operator for the classifier: it does not name a
    function of the table. *)
Definition binary_token (funcs : list CustomFunction.t) (op : string) : Prop :=
  isBinaryOperator op = true /\ isFunction funcs op = None.

(** *** A math library to run the class on concrete inputs

    Every theorem below holds for every [Libm].  To instantiate them at
    concrete inputs this library is used: [pow] multiplies out
    non-negative integral exponents below 1024, which is exact as long as
    the products are integers below [2 ^ 53]; [sqrt] and [abs] are the
    IEEE operations.  It gives no value ([NAN]) to [pow] elsewhere and to
    the transcendental functions, which no instance below calls. *)
Module RefLibm.

(** [b] as a natural number, when it is a non-negative integer below 1024. *)
Definition small_nat (b : float) : option nat :=
  match Prim2SF b with
  | S754_zero _ => Some O
  | S754_finite false m e =>
      let z := if 0 <=? e then Zpos m * 2 ^ e
               else if Zpos m mod 2 ^ (- e) =? 0 then Zpos m / 2 ^ (- e) else -1 in
      if (0 <=? z) && (z <? 1024) then Some (Z.to_nat z) else None
  | _ => None
  end.

Definition pow (a b : float) : float :=
  match small_nat b with
  | Some n => Nat.iter n (fun r => (r * a)%float) 1%float
  | None => NAN
  end.

Definition undefined (x : float) : float := NAN.

Definition libm : Libm :=
  {| c_sin := undefined; c_cos := undefined; c_tan := undefined;
     c_log := undefined; c_log10 := undefined; c_exp := undefined;
     c_sqrt := PrimFloat.sqrt; c_abs := PrimFloat.abs; c_pow := pow |}.

End RefLibm.

(** ** Parentheses *)

Lemma checkParenthesis_loop_neg (rest : string) (cnt : Z) :
  cnt < 0 -> checkParenthesis_loop rest cnt = cnt.
Proof.
  intros Hneg. destruct rest as [|c rest]; simpl; [reflexivity|].
  destruct (Z.leb_spec 0 cnt); [lia | reflexivity].
Qed.

Lemma wrap_int_succ (cnt : Z) :
  0 <= cnt < 2 ^ 31 -> 0 <= wrap_int (cnt + 1) ->
  wrap_int (cnt + 1) = cnt + 1 /\ cnt + 1 < 2 ^ 31.
Proof.
  unfold wrap_int. intros Hc Hw.
  destruct (Z.eq_dec (cnt + 1) (2 ^ 31)) as [E|E].
  - rewrite E in Hw. exfalso. revert Hw. vm_compute. intros Hw. now apply Hw.
  - rewrite Z.mod_small by lia. lia.
Qed.

Lemma wrap_int_pred (cnt : Z) :
  0 <= cnt < 2 ^ 31 -> wrap_int (cnt - 1) = cnt - 1.
Proof.
  unfold wrap_int. intros Hc. rewrite Z.mod_small by lia. lia.
Qed.

Lemma substring_0_0 (s : string) : substring 0 0 s = EmptyString.
Proof. destruct s; reflexivity. Qed.

Lemma substring_0_S (n : nat) (c : ascii) (s : string) :
  substring 0 (S n) (String c s) = String c (substring 0 n s).
Proof. reflexivity. Qed.

Lemma substring_0_empty (n : nat) : substring 0 n EmptyString = EmptyString.
Proof. destruct n; reflexivity. Qed.

(** When the scan ends with [cnt = 0], no prefix went negative and the
    final counts agree: the counter of the loop is the true depth. *)
Lemma checkParenthesis_loop_zero (rest : string) :
  forall cnt, 0 <= cnt < 2 ^ 31 ->
  checkParenthesis_loop rest cnt = 0 ->
  (forall n, 0 <= cnt + count_char "(" (substring 0 n rest)
                  - count_char ")" (substring 0 n rest))
  /\ cnt + count_char "(" rest - count_char ")" rest = 0.
Proof.
  induction rest as [|c rest IH]; intros cnt Hc Hz.
  - simpl in Hz. split; [intros n; rewrite substring_0_empty|]; simpl; lia.
  - cbn [checkParenthesis_loop] in Hz.
    destruct (Z.leb_spec 0 cnt) as [_|]; [|lia].
    assert (Hstep : forall cnt', checkParenthesis_loop rest cnt' = 0 -> 0 <= cnt').
    { intros cnt' H'. destruct (Z.lt_ge_cases cnt' 0) as [Hn|]; [|assumption].
      rewrite (checkParenthesis_loop_neg _ _ Hn) in H'. lia. }
    assert (Hcons : forall d,
      (if Ascii.eqb c "(" then 1 else 0) - (if Ascii.eqb c ")" then 1 else 0) = d ->
      0 <= cnt + d < 2 ^ 31 ->
      checkParenthesis_loop rest (cnt + d) = 0 ->
      (forall n, 0 <= cnt + count_char "(" (substring 0 n (String c rest))
                      - count_char ")" (substring 0 n (String c rest)))
      /\ cnt + count_char "(" (String c rest) - count_char ")" (String c rest) = 0).
    { intros d Hd Hr Hz'. destruct (IH (cnt + d) Hr Hz') as [Hpre Htot]. split.
      - intros [|n]; [rewrite substring_0_0; cbn [count_char]; lia|].
        rewrite substring_0_S. specialize (Hpre n). cbn [count_char]. lia.
      - cbn [count_char]. lia. }
    destruct (Ascii.eqb_spec c "(") as [->|Hopen].
    + pose proof (Hstep _ Hz) as Hpos.
      destruct (wrap_int_succ cnt Hc Hpos) as [Hw Hlt]. rewrite Hw in Hz.
      apply (Hcons 1); [reflexivity | lia | assumption].
    + destruct (Ascii.eqb_spec c ")") as [->|Hclose].
      * rewrite (wrap_int_pred cnt Hc) in Hz. pose proof (Hstep _ Hz) as Hpos.
        apply (Hcons (-1)); [reflexivity | lia | assumption].
      * apply (Hcons 0); [reflexivity | lia | now rewrite Z.add_0_r].
Qed.

Lemma checkParenthesis_unbalanced (text : string) :
  unbalanced text -> checkParenthesis text = false.
Proof.
  intros Hu. unfold checkParenthesis.
  destruct (Z.eqb_spec (checkParenthesis_loop text 0) 0) as [Hz|]; [|reflexivity].
  destruct (checkParenthesis_loop_zero text 0 ltac:(lia) Hz) as [Hpre Htot].
  destruct Hu as [[n Hn]|Hne]; [specialize (Hpre n)|]; lia.
Qed.

Lemma count_char_remove (c a : ascii) (s : string) :
  a <> c -> count_char a (remove_char c s) = count_char a s.
Proof.
  intros Hac. induction s as [|b s IH]; [reflexivity|].
  cbn [remove_char]. destruct (Ascii.eqb_spec b c) as [->|Hbc].
  - cbn [count_char]. rewrite IH.
    destruct (Ascii.eqb_spec c a); [congruence | lia].
  - cbn [count_char]. now rewrite IH.
Qed.

(** Removing a character maps prefixes to prefixes. *)
Lemma remove_char_prefix (c : ascii) (s : string) :
  forall n, exists k,
    substring 0 k (remove_char c s) = remove_char c (substring 0 n s).
Proof.
  induction s as [|b s IH]; intros n.
  - exists O. rewrite (substring_0_empty n). reflexivity.
  - destruct n as [|n].
    + exists O. now rewrite !substring_0_0.
    + rewrite substring_0_S. cbn [remove_char]. destruct (IH n) as [k Hk].
      destruct (Ascii.eqb b c).
      * now exists k.
      * exists (S k). now rewrite substring_0_S, Hk.
Qed.

Lemma unbalanced_remove_space (s : string) :
  unbalanced s -> unbalanced (remove_char " " s).
Proof.
  intros [[n Hn]|Hne].
  - left. destruct (remove_char_prefix " " s n) as [k Hk]. exists k.
    rewrite Hk, !count_char_remove; [exact Hn | discriminate ..].
  - right. rewrite !count_char_remove; [exact Hne | discriminate ..].
Qed.

(** ** The tokenizer terminates *)

Lemma find_first_of_bounds (text chars : string) :
  forall pos nextPos, find_first_of text chars pos = Some nextPos ->
  (pos <= nextPos < String.length text)%nat.
Proof.
  induction text as [|c rest IH]; intros pos nextPos Hf; [discriminate|].
  cbn [find_first_of] in Hf. destruct pos as [|pos].
  - destruct (mem_char c chars).
    + injection Hf as <-. simpl. lia.
    + destruct (find_first_of rest chars 0) as [k|] eqn:Hk; [|discriminate].
      injection Hf as <-. apply IH in Hk. simpl. lia.
  - destruct (find_first_of rest chars pos) as [k|] eqn:Hk; [|discriminate].
    injection Hf as <-. apply IH in Hk. simpl. lia.
Qed.

(** The loop of [getTokens] never needs more iterations than there are
    characters left. *)
Lemma getTokens_loop_fuel (text : string) (fuel : nat) :
  forall pos acc, (String.length text - pos <= fuel)%nat ->
  exists ts, getTokens_loop fuel text pos acc = Some ts.
Proof.
  induction fuel as [|fuel IH]; intros pos acc Hfuel.
  - cbn [getTokens_loop].
    destruct (find_first_of text specials pos) as [k|] eqn:Hk.
    + apply find_first_of_bounds in Hk. lia.
    + eexists. reflexivity.
  - cbn [getTokens_loop].
    destruct (find_first_of text specials pos) as [k|] eqn:Hk.
    + apply find_first_of_bounds in Hk. apply IH. lia.
    + eexists. reflexivity.
Qed.

Lemma getTokens_returns (text : string) :
  checkParenthesis text = true ->
  getTokens_loop (String.length text) text 0 [] = Some (getTokens text).
Proof.
  intros Hb. unfold getTokens. rewrite Hb. cbn [negb].
  destruct (getTokens_loop_fuel text (String.length text) 0 [] ltac:(lia)) as [ts Hts].
  now rewrite Hts.
Qed.

(** ** The tokenizer follows the scanning rule *)

Lemma string_app_assoc (s1 s2 s3 : string) :
  ((s1 ++ s2) ++ s3 = s1 ++ s2 ++ s3)%string.
Proof.
  induction s1 as [|c s1 IH]; [reflexivity|]. cbn [append]. now rewrite IH.
Qed.

Lemma string_app_empty (s : string) : (s ++ "" = s)%string.
Proof.
  induction s as [|c s IH]; [reflexivity|]. cbn [append]. now rewrite IH.
Qed.

Lemma string_app_length (s1 s2 : string) :
  String.length (s1 ++ s2) = (String.length s1 + String.length s2)%nat.
Proof.
  induction s1 as [|c s1 IH]; [reflexivity|]. cbn [append String.length].
  now rewrite IH.
Qed.

Lemma find_first_of_skip (chars pre s : string) :
  find_first_of (pre ++ s) chars (String.length pre)
  = option_map (Nat.add (String.length pre)) (find_first_of s chars 0).
Proof.
  induction pre as [|c pre IH].
  - cbn [append String.length]. now destruct (find_first_of s chars 0).
  - cbn [append String.length find_first_of]. rewrite IH.
    now destruct (find_first_of s chars 0).
Qed.

Lemma find_first_of_free (chars a : string) (c : ascii) (rest : string) :
  free_of chars a = true -> mem_char c chars = true ->
  find_first_of (a ++ String c rest) chars 0 = Some (String.length a).
Proof.
  intros Ha Hc. induction a as [|d a IH].
  - cbn [append find_first_of String.length]. now rewrite Hc.
  - cbn [free_of] in Ha. apply andb_true_iff in Ha as [Hd Ha].
    apply negb_true_iff in Hd.
    cbn [append find_first_of String.length]. now rewrite Hd, (IH Ha).
Qed.

Lemma find_first_of_none (chars a : string) :
  free_of chars a = true -> find_first_of a chars 0 = None.
Proof.
  intros Ha. induction a as [|d a IH]; [reflexivity|].
  cbn [free_of] in Ha. apply andb_true_iff in Ha as [Hd Ha].
  apply negb_true_iff in Hd. cbn [find_first_of]. now rewrite Hd, (IH Ha).
Qed.

Lemma substring_skip (pre s : string) (n : nat) :
  substring (String.length pre) n (pre ++ s) = substring 0 n s.
Proof.
  induction pre as [|c pre IH]; [reflexivity|]. exact IH.
Qed.

Lemma substring_prefix (a s : string) :
  substring 0 (String.length a) (a ++ s) = a.
Proof.
  induction a as [|c a IH]; [apply substring_0_0|].
  cbn [append String.length]. now rewrite substring_0_S, IH.
Qed.

Lemma substring_all (a : string) :
  forall n, (String.length a <= n)%nat -> substring 0 n a = a.
Proof.
  induction a as [|c a IH]; intros n Hn; [apply substring_0_empty|].
  destruct n as [|n]; [simpl in Hn; lia|].
  rewrite substring_0_S, IH; [reflexivity | simpl in Hn; lia].
Qed.

Lemma get_skip (pre : string) (c : ascii) (rest : string) :
  String.get (String.length pre) (pre ++ String c rest) = Some c.
Proof.
  induction pre as [|d pre IH]; [reflexivity | exact IH].
Qed.

Lemma push_nonempty_app (acc : list string) (token : string) :
  push_nonempty acc token = acc ++ push_nonempty [] token.
Proof.
  destruct token; [now rewrite app_nil_r | reflexivity].
Qed.

(** One iteration of the loop: from [pos], the run [a] of ordinary
    characters and the special character [c] that ends it. *)
Lemma getTokens_loop_special (fuel : nat) (pre a : string) (c : ascii)
      (rest : string) (acc : list string) :
  free_of specials a = true -> mem_char c specials = true ->
  getTokens_loop (S fuel) (pre ++ a ++ String c rest) (String.length pre) acc
  = getTokens_loop fuel (pre ++ a ++ String c rest)
      (S (String.length pre + String.length a))
      (push_nonempty acc a ++ [String c EmptyString]).
Proof.
  intros Ha Hc. cbn [getTokens_loop].
  rewrite find_first_of_skip, (find_first_of_free _ _ _ _ Ha Hc).
  cbn [option_map]. unfold char_at, substr.
  replace (String.length pre + String.length a - String.length pre)%nat
    with (String.length a) by lia.
  rewrite substring_skip, substring_prefix.
  rewrite <- string_app_length, <- string_app_assoc, get_skip.
  reflexivity.
Qed.

(** The exit of the loop: no special character from [pos] on. *)
Lemma getTokens_loop_last (fuel : nat) (pre a : string) (acc : list string) :
  free_of specials a = true ->
  getTokens_loop fuel (pre ++ a) (String.length pre) acc
  = Some (push_nonempty acc a).
Proof.
  intros Ha.
  assert (Hnone : find_first_of (pre ++ a) specials (String.length pre) = None)
    by now rewrite find_first_of_skip, (find_first_of_none _ _ Ha).
  assert (Hsub : substr_npos (pre ++ a) (String.length pre) = a).
  { unfold substr_npos. rewrite substring_skip. apply substring_all.
    rewrite string_app_length. lia. }
  destruct fuel; cbn [getTokens_loop]; now rewrite Hnone, Hsub.
Qed.

Lemma free_of_app (chars s1 s2 : string) :
  free_of chars (s1 ++ s2) = free_of chars s1 && free_of chars s2.
Proof.
  induction s1 as [|c s1 IH]; [reflexivity|].
  cbn [append free_of]. now rewrite IH, andb_assoc.
Qed.

(** The loop of [getTokens] computes the scanning rule. *)
Lemma getTokens_loop_scan (rest : string) :
  forall fuel pre cur acc,
  free_of specials cur = true -> (String.length rest <= fuel)%nat ->
  getTokens_loop fuel (pre ++ cur ++ rest) (String.length pre) acc
  = Some (acc ++ scan rest cur).
Proof.
  induction rest as [|c rest IH]; intros fuel pre cur acc Hcur Hfuel.
  - rewrite string_app_empty, (getTokens_loop_last _ _ _ _ Hcur).
    cbn [scan]. now rewrite push_nonempty_app.
  - cbn [scan]. destruct (mem_char c specials) eqn:Hc.
    + destruct fuel as [|fuel]; [simpl in Hfuel; lia|].
      rewrite (getTokens_loop_special _ _ _ _ _ _ Hcur Hc).
      replace (pre ++ cur ++ String c rest)%string
        with ((pre ++ cur ++ String c "") ++ "" ++ rest)%string
        by (now rewrite !string_app_assoc).
      replace (S (String.length pre + String.length cur))
        with (String.length (pre ++ cur ++ String c ""))
        by (rewrite !string_app_length; simpl; lia).
      rewrite IH; [|reflexivity | simpl in Hfuel; lia].
      rewrite (push_nonempty_app acc cur), <- !app_assoc. reflexivity.
    + replace (pre ++ cur ++ String c rest)%string
        with (pre ++ (cur ++ String c "") ++ rest)%string
        by (now rewrite !string_app_assoc).
      apply IH; [|simpl in Hfuel; lia].
      rewrite free_of_app, Hcur. cbn [free_of]. now rewrite Hc.
Qed.

(** [getTokens] returns the tokens of the scanning rule when the
    parentheses are balanced, and nothing otherwise. *)
Lemma getTokens_scan (text : string) :
  getTokens text = if checkParenthesis text then scan text "" else [].
Proof.
  unfold getTokens. destruct (checkParenthesis text); [|reflexivity].
  cbn [negb].
  pose proof (getTokens_loop_scan text (String.length text) "" "" []
                eq_refl (le_n _)) as Hscan.
  cbn [append String.length] in Hscan. now rewrite Hscan.
Qed.

Lemma scan_free (a : string) :
  forall rest cur,
  free_of specials a = true -> scan (a ++ rest) cur = scan rest (cur ++ a).
Proof.
  induction a as [|d a IH]; intros rest cur Ha.
  - now rewrite string_app_empty.
  - cbn [free_of] in Ha. apply andb_true_iff in Ha as [Hd Ha].
    apply negb_true_iff in Hd. cbn [append scan]. rewrite Hd, (IH _ _ Ha).
    now rewrite string_app_assoc.
Qed.

Lemma plain_parts (s : string) :
  plain s = true ->
  free_of specials s = true /\ free_of " " s = true /\ s <> "".
Proof.
  unfold plain. rewrite !andb_true_iff, negb_true_iff, String.eqb_neq. tauto.
Qed.

(** A text without parenthesis passes the check. *)
Lemma checkParenthesis_loop_free (s : string) :
  forall cnt, free_of "()" s = true -> checkParenthesis_loop s cnt = cnt.
Proof.
  induction s as [|c s IH]; intros cnt Hs; [reflexivity|].
  cbn [free_of mem_char] in Hs. rewrite orb_false_r in Hs.
  apply andb_true_iff in Hs as [Hc Hs].
  apply negb_true_iff, orb_false_iff in Hc as [Ho Hcl].
  rewrite Ascii.eqb_sym in Ho. rewrite Ascii.eqb_sym in Hcl.
  cbn [checkParenthesis_loop]. rewrite Ho, Hcl, (IH _ Hs).
  now destruct (0 <=? cnt).
Qed.

Lemma free_of_parentheses (s : string) :
  free_of specials s = true -> free_of "()" s = true.
Proof.
  induction s as [|c s IH]; [reflexivity|]. cbn [free_of]. intros Hs.
  apply andb_true_iff in Hs as [Hc Hs]. rewrite (IH Hs), andb_true_r.
  apply negb_true_iff in Hc. apply negb_true_iff.
  cbn [specials mem_char] in *.
  apply orb_false_iff in Hc as [H1 Hc]. apply orb_false_iff in Hc as [H2 _].
  now rewrite H1, H2.
Qed.

Lemma remove_char_free (c : ascii) (s : string) :
  free_of (String c EmptyString) s = true -> remove_char c s = s.
Proof.
  induction s as [|a s IH]; [reflexivity|]. cbn [free_of mem_char].
  rewrite orb_false_r, Ascii.eqb_sym. intros Hs.
  apply andb_true_iff in Hs as [Ha Hs]. apply negb_true_iff in Ha.
  cbn [remove_char]. now rewrite Ha, (IH Hs).
Qed.

(** The tokens of [a^b^c], for plain words [a], [b] and [c]. *)
Lemma getTokens_power_chain (a b c : string) :
  plain a = true -> plain b = true -> plain c = true ->
  getTokens (remove_char " " (a ++ "^" ++ b ++ "^" ++ c)) = [a; "^"; b; "^"; c].
Proof.
  intros Ha Hb Hc.
  apply plain_parts in Ha as (Ha & Hsa & Hna).
  apply plain_parts in Hb as (Hb & Hsb & Hnb).
  apply plain_parts in Hc as (Hc & Hsc & Hnc).
  rewrite remove_char_free by (rewrite !free_of_app, Hsa, Hsb, Hsc; reflexivity).
  rewrite getTokens_scan.
  assert (Hchk : checkParenthesis (a ++ "^" ++ b ++ "^" ++ c) = true).
  { unfold checkParenthesis. rewrite checkParenthesis_loop_free; [reflexivity|].
    rewrite !free_of_app, (free_of_parentheses _ Ha), (free_of_parentheses _ Hb),
      (free_of_parentheses _ Hc). reflexivity. }
  rewrite Hchk, (scan_free _ _ _ Ha). cbn [append scan mem_char specials].
  cbn [Ascii.eqb Bool.eqb orb]. rewrite (scan_free _ _ _ Hb).
  cbn [append scan mem_char specials]. cbn [Ascii.eqb Bool.eqb orb].
  replace (c) with (c ++ "")%string at 1 by apply string_app_empty.
  rewrite (scan_free _ _ _ Hc). cbn [append scan].
  destruct a; [congruence|]. destruct b; [congruence|]. destruct c; [congruence|].
  reflexivity.
Qed.

(** ** Unbalanced input *)

Section Unbalanced.

Context {libm : Libm}.

Lemma getTokens_unbalanced (text : string) :
  unbalanced text -> getTokens text = [].
Proof.
  intros Hu. unfold getTokens. now rewrite (checkParenthesis_unbalanced _ Hu).
Qed.

Lemma evalRPN_nil (funcs : list CustomFunction.t) (vars : list Var.t) :
  evalRPN funcs [] vars = NAN.
Proof. reflexivity. Qed.

(** C2: for every input text whose parentheses are unbalanced (some
    prefix has more [')'] than ['('], or the final counts differ) the
    constructor leaves an empty token sequence and an empty RPN
    sequence, and [eval()], [eval(double)] and [eval(vector<Variable>)]
    all return [NAN]. *)
Theorem unbalanced_is_undefined (exprText : string) (funcs : list CustomFunction.t) :
  unbalanced exprText ->
  tokens (Expression_new exprText funcs) = []
  /\ rpn (Expression_new exprText funcs) = []
  /\ balanced (Expression_new exprText funcs) = false
  /\ eval (Expression_new exprText funcs) = NAN
  /\ (forall val, eval_x (Expression_new exprText funcs) val = NAN)
  /\ (forall vars, eval_vars (Expression_new exprText funcs) vars = NAN).
Proof.
  intros Hu. apply unbalanced_remove_space in Hu.
  assert (Ht : tokens (Expression_new exprText funcs) = [])
    by (cbn [Expression_new tokens]; now apply getTokens_unbalanced).
  assert (Hr : rpn (Expression_new exprText funcs) = [])
    by (cbn [Expression_new rpn]; now rewrite (getTokens_unbalanced _ Hu)).
  assert (Hv : forall vars, eval_vars (Expression_new exprText funcs) vars = NAN)
    by (intros vars; unfold eval_vars; rewrite Hr; apply evalRPN_nil).
  repeat split; try assumption.
  - cbn [Expression_new balanced]. now apply checkParenthesis_unbalanced.
  - apply Hv.
  - intros val. unfold eval_x. destruct (update_x defaultVariables val). apply Hv.
Qed.

End Unbalanced.

(** ** Multiplying by -1.0 negates *)

Lemma Prim2SF_inj (x y : float) : Prim2SF x = Prim2SF y -> x = y.
Proof.
  intros H. rewrite <- (SF2Prim_Prim2SF x), <- (SF2Prim_Prim2SF y). now rewrite H.
Qed.

Lemma SFmul_minus_one (s : bool) (m : positive) (e : Z) :
  bounded prec emax m e = true ->
  SFmul prec emax (S754_finite true 4503599627370496 (-52)) (S754_finite s m e)
  = S754_finite (negb s) m e.
Proof.
  intros Hb. unfold bounded, canonical_mantissa in Hb.
  apply andb_true_iff in Hb as [Hc He]. apply Z.eqb_eq in Hc.
  unfold SFmul. cbn [xorb].
  change (4503599627370496 * m)%positive with (Pos.iter xO m 52).
  unfold binary_round_aux.
  assert (Hd : Zdigits2 (Zpos (Pos.iter xO m 52)) = Zpos (digits2_pos m) + 52)
    by (cbn; lia).
  unfold shr_fexp at 1. rewrite Hd.
  replace (Z.pos (digits2_pos m) + 52 + (-52 + e)) with (Z.pos (digits2_pos m) + e)
    by lia.
  rewrite Hc. replace (e - (-52 + e)) with 52 by lia.
  cbn -[fexp Z.add digits2_pos Z.leb Z.sub].
  unfold shr_fexp. cbn [Zdigits2].
  replace (-52 + e + 52) with e by lia.
  rewrite Hc, Z.sub_diag. cbn -[Z.leb Z.sub].
  now rewrite He.
Qed.

(** The product [-1.0 * v] of the source is the IEEE negation of [v]. *)
Lemma mul_minus_one (v : float) : (minus_one * v)%float = (- v)%float.
Proof.
  apply Prim2SF_inj. rewrite mul_spec, opp_spec.
  change (Prim2SF minus_one) with (S754_finite true 4503599627370496 (-52)).
  pose proof (Prim2SF_valid v) as Hv.
  destruct (Prim2SF v) as [s|s| |s m e]; try reflexivity.
  cbn [valid_binary] in Hv. unfold SF64mul.
  now rewrite (SFmul_minus_one s m e Hv).
Qed.

Lemma calculateUnary_negates (x : float) : calculateUnary x "~" = (- x)%float.
Proof. unfold calculateUnary. cbn [String.eqb Ascii.eqb Bool.eqb]. apply mul_minus_one. Qed.

(** ** The classifier on operator tokens *)

Lemma isBinaryOperator_cases (item : string) :
  isBinaryOperator item = true ->
  item = "+" \/ item = "-" \/ item = "*" \/ item = "/" \/ item = "^".
Proof.
  unfold isBinaryOperator. rewrite !orb_true_iff, !String.eqb_eq. tauto.
Qed.

Lemma isOperator_cases (item : string) :
  isOperator item = true ->
  isBinaryOperator item = true \/ item = "~".
Proof.
  unfold isOperator, isBinaryOperator.
  rewrite !orb_true_iff, !String.eqb_eq. tauto.
Qed.

Lemma isBinaryOperator_isOperator (item : string) :
  isBinaryOperator item = true -> isOperator item = true.
Proof.
  unfold isOperator, isBinaryOperator. intros ->. reflexivity.
Qed.

(** [strtod] converts nothing of an operator, so it is never taken for a
    number. *)
Lemma getNumber_operator (item : string) :
  isOperator item = true -> fst (getNumber item) = false.
Proof.
  intros H. apply isOperator_cases in H as [H| ->]; [|reflexivity].
  apply isBinaryOperator_cases in H as [->|[->|[->|[->| ->]]]]; reflexivity.
Qed.

Lemma isBinaryOperator_not_unary (item : string) :
  isBinaryOperator item = true -> isUnaryOperator item = false.
Proof.
  intros H.
  apply isBinaryOperator_cases in H as [->|[->|[->|[->| ->]]]]; reflexivity.
Qed.

(** ** The postfix evaluator *)

Section Evaluator.

Context {libm : Libm}.
Variable funcs : list CustomFunction.t.
Variable vars : list Var.t.

(** The pass over [pre ++ post] is the pass over [pre] followed, unless
    it returned, by the pass over [post]. *)
Lemma evalRPN_loop_app (pre post : list string) :
  forall values,
  evalRPN_loop funcs vars (pre ++ post) values =
  match evalRPN_loop funcs vars pre values with
  | Some values' => evalRPN_loop funcs vars post values'
  | None => None
  end.
Proof.
  induction pre as [|item pre IH]; intros values; [reflexivity|].
  cbn [app evalRPN_loop].
  destruct (evalRPN_step funcs vars values item); [apply IH | reflexivity].
Qed.

Lemma evalRPN_step_operator (item : string) (values : list float) :
  isOperator item = true -> isFunction funcs item = None ->
  evalRPN_step funcs vars values item =
  if isBinaryOperator item && (2 <=? List.length values)%nat then
    match values with
    | b :: a :: values' => Some (calculate a b item :: values')
    | _ => Some values
    end
  else if isUnaryOperator item && (0 <? List.length values)%nat then
    match values with
    | val :: values' => Some (calculateUnary val item :: values')
    | [] => Some values
    end
  else Some values.
Proof.
  intros Hop Hfun. unfold evalRPN_step.
  pose proof (getNumber_operator item Hop) as Hnum.
  destruct (getNumber item) as [number val]. cbn [fst] in Hnum. subst number.
  now rewrite Hfun, Hop.
Qed.

(** C5: a binary operator token met with at least two values on the stack
    pops [b] (the top), then [a], and pushes [a OP b]; met with fewer
    than two values it is skipped: the stack is unchanged and the pass
    goes on with the remaining tokens.  An operator token is one the
    classifier reaches as such, that is, one that does not name a
    function of the table. *)
Theorem binary_operator_step (item : string) (values : list float) :
  isBinaryOperator item = true ->
  isFunction funcs item = None ->
  (forall b a rest, values = b :: a :: rest ->
     evalRPN_step funcs vars values item = Some (calculate a b item :: rest))
  /\ ((List.length values < 2)%nat ->
      evalRPN_step funcs vars values item = Some values
      /\ forall items,
           evalRPN_loop funcs vars (item :: items) values =
           evalRPN_loop funcs vars items values)
  /\ (forall a b,
        calculate a b "+" = (a + b)%float
        /\ calculate a b "-" = (a - b)%float
        /\ calculate a b "*" = (a * b)%float
        /\ calculate a b "/" = (a / b)%float
        /\ calculate a b "^" = c_pow a b).
Proof.
  intros Hbin Hfun.
  pose proof (evalRPN_step_operator item values
                (isBinaryOperator_isOperator _ Hbin) Hfun) as Hstep.
  rewrite Hbin, (isBinaryOperator_not_unary _ Hbin) in Hstep. cbn [andb] in Hstep.
  split; [|split].
  - intros b a rest ->. exact Hstep.
  - intros Hlen.
    assert (Hskip : evalRPN_step funcs vars values item = Some values).
    { rewrite Hstep. destruct values as [|b [|a rest]]; try reflexivity.
      simpl in Hlen. lia. }
    split; [exact Hskip|]. intros items. cbn [evalRPN_loop]. now rewrite Hskip.
  - intros a b. repeat split.
Qed.

(** C6: a function-name token (one that is not first read as a number)
    met with an empty value stack makes [evalRPN] return [NAN] at once,
    whatever tokens follow; met with a non-empty stack it pops one value,
    applies the function and pushes the result. *)
Theorem function_step (item : string) (func : float -> float) :
  fst (getNumber item) = false ->
  isFunction funcs item = Some func ->
  evalRPN_step funcs vars [] item = None
  /\ (forall pre post,
        evalRPN_loop funcs vars pre [] = Some [] ->
        evalRPN funcs (pre ++ item :: post) vars = NAN)
  /\ (forall val values,
        evalRPN_step funcs vars (val :: values) item = Some (func val :: values)).
Proof.
  intros Hnum Hfun.
  assert (Hstep : forall values, evalRPN_step funcs vars values item =
            match values with
            | [] => None
            | val :: values' => Some (func val :: values')
            end).
  { intros values. unfold evalRPN_step.
    destruct (getNumber item) as [number val]. cbn [fst] in Hnum. subst number.
    now rewrite Hfun. }
  split; [apply Hstep | split].
  - intros pre post Hpre. unfold evalRPN.
    rewrite evalRPN_loop_app, Hpre. cbn [evalRPN_loop]. now rewrite Hstep.
  - intros val values. apply Hstep.
Qed.

(** C7: when the pass over all tokens of [rpn] ends with the value stack
    [values], [evalRPN] returns the top of the stack if the stack holds
    exactly one value, and [NAN] in every other case (an empty stack, or
    two or more values). *)
Theorem evalRPN_result (rpn : list string) (values : list float) :
  evalRPN_loop funcs vars rpn [] = Some values ->
  (forall v, values = [v] -> evalRPN funcs rpn vars = v)
  /\ (List.length values <> 1%nat -> evalRPN funcs rpn vars = NAN).
Proof.
  intros Hpass. unfold evalRPN. rewrite Hpass. split.
  - intros v ->. reflexivity.
  - intros Hlen. destruct values as [|v [|w values]]; try reflexivity.
    now contradiction Hlen.
Qed.

End Evaluator.

(** ** Variables *)

Lemma isOperator_tilde_name (name : string) :
  name <> "" -> isOperator ("~" ++ name) = false.
Proof.
  destruct name as [|c name]; [congruence | reflexivity].
Qed.

Lemma eqb_tilde_self (name : string) : (name =? "~" ++ name)%string = false.
Proof.
  apply String.eqb_neq. intros H. apply (f_equal String.length) in H.
  cbn in H. lia.
Qed.

(** C9 (amended): for every variable list whose first entry named [name]
    or [~name] is [{name, v}], and every non-empty [name], [isVariable]
    applied to the token [~name] succeeds with [-1.0 * v], which is
    [-v]. *)
Theorem isVariable_negated_name (vars1 vars2 : list Var.t) (name : string) (v : float) :
  name <> "" ->
  (forall u, In u vars1 -> Var.name u <> name /\ Var.name u <> ("~" ++ name)%string) ->
  isVariable ("~" ++ name) (vars1 ++ Var.mk name v :: vars2) = Some (- v)%float.
Proof.
  intros Hname Hfirst. unfold isVariable.
  rewrite (isOperator_tilde_name _ Hname).
  induction vars1 as [|u vars1 IH]; cbn [app isVariable_loop Var.name Var.val].
  - rewrite eqb_tilde_self.
    change ("~" ++ name =? "~" ++ name)%string with (name =? name)%string.
    now rewrite String.eqb_refl, mul_minus_one.
  - destruct (Hfirst u (or_introl eq_refl)) as [H1 H2].
    apply String.eqb_neq in H1, H2. rewrite H2.
    change ("~" ++ Var.name u =? "~" ++ name)%string with (Var.name u =? name)%string.
    rewrite H1. apply IH. intros w Hw. apply Hfirst. now right.
Qed.

Lemma isVariable_unnamed (name : string) (vars : list Var.t) :
  (forall u, ("~" ++ u =? name)%string = false) ->
  unnamed name vars -> isVariable name vars = None.
Proof.
  intros Htilde Hun. unfold isVariable. destruct (isOperator name); [reflexivity|].
  induction vars as [|u vars IH]; [reflexivity|].
  cbn [isVariable_loop]. rewrite Htilde.
  assert (H : (Var.name u =? name)%string = false)
    by (apply String.eqb_neq, Hun; now left).
  rewrite H. apply IH. intros w Hw. apply Hun. now right.
Qed.

(** ** Evaluation with a caller-supplied list *)

Section CallerList.

Context {libm : Libm}.

Lemma evalRPN_step_variable (funcs : list CustomFunction.t) (vars : list Var.t)
      (values : list float) (item : string) :
  fst (getNumber item) = false -> isFunction funcs item = None ->
  isOperator item = false ->
  evalRPN_step funcs vars values item =
  match isVariable item vars with
  | Some val => Some (val :: values)
  | None => Some values
  end.
Proof.
  intros Hnum Hfun Hop. unfold evalRPN_step.
  destruct (getNumber item) as [number val]. cbn [fst] in Hnum. subst number.
  now rewrite Hfun, Hop.
Qed.

(** An item that pushes nothing can be dropped from the postfix form. *)
Lemma evalRPN_loop_unresolved (funcs : list CustomFunction.t) (vars : list Var.t)
      (name : string) :
  (forall values, evalRPN_step funcs vars values name = Some values) ->
  forall rpn values,
  evalRPN_loop funcs vars rpn values
  = evalRPN_loop funcs vars (filter (fun t => negb (t =? name)%string) rpn) values.
Proof.
  intros Hname rpn. induction rpn as [|item rpn IH]; intros values; [reflexivity|].
  cbn [filter]. destruct (String.eqb_spec item name) as [->|Hne]; cbn [negb].
  - cbn [evalRPN_loop]. rewrite Hname. apply IH.
  - cbn [evalRPN_loop].
    destruct (evalRPN_step funcs vars values item); [apply IH | reflexivity].
Qed.

(** C1 (amended): [eval(vector<Variable>)] resolves names against the
    caller's list alone; the defaults are not consulted.  For [name] one
    of [pi] and [e] and every list with no entry of that name, the token
    is unresolved and pushes nothing, so that every postfix form
    evaluates as if the token were not there, and the expression [name]
    evaluates to [NAN].  Only [eval()] and [eval(double)] resolve [name]
    to its default value. *)
Theorem eval_vars_without_defaults (name : string) (vars : list Var.t) :
  name = "pi" \/ name = "e" ->
  unnamed name vars ->
  isVariable name vars = None
  /\ (forall funcs values,
        isFunction funcs name = None ->
        evalRPN_step funcs vars values name = Some values)
  /\ (forall funcs rpn,
        isFunction funcs name = None ->
        evalRPN funcs rpn vars
        = evalRPN funcs (filter (fun t => negb (t =? name)%string) rpn) vars)
  /\ eval_vars (Expression_of name) vars = NAN
  /\ (exists d,
        isVariable name defaultVariables = Some d
        /\ PrimFloat.is_nan d = false
        /\ eval (Expression_of name) = d
        /\ forall x, eval_x (Expression_of name) x = d).
Proof.
  intros Hname Hun.
  assert (Hvar : isVariable name vars = None)
    by (apply isVariable_unnamed; [destruct Hname as [-> | ->]; reflexivity | exact Hun]).
  assert (Hstep : forall funcs values, isFunction funcs name = None ->
            evalRPN_step funcs vars values name = Some values).
  { intros funcs values Hfun. rewrite evalRPN_step_variable, Hvar; try reflexivity;
      try assumption; destruct Hname as [-> | ->]; reflexivity. }
  split; [exact Hvar | split; [exact Hstep|]]. split; [|split].
  - intros funcs rpn Hfun. unfold evalRPN.
    now rewrite (evalRPN_loop_unresolved funcs vars name (fun v => Hstep funcs v Hfun)).
  - assert (Hrpn : rpn (Expression_of name) = [name])
      by (destruct Hname as [-> | ->]; reflexivity).
    unfold eval_vars, evalRPN. rewrite Hrpn. cbn [evalRPN_loop].
    rewrite Hstep; [reflexivity|].
    destruct Hname as [-> | ->]; reflexivity.
  - destruct Hname as [-> | ->]; eexists; repeat split.
Qed.

End CallerList.

(** ** Spaces *)

Lemma remove_char_idempotent (c : ascii) (s : string) :
  remove_char c (remove_char c s) = remove_char c s.
Proof.
  induction s as [|a s IH]; [reflexivity|]. cbn [remove_char].
  destruct (Ascii.eqb a c) eqn:E; [exact IH|].
  cbn [remove_char]. now rewrite E, IH.
Qed.

Lemma count_char_removed (c : ascii) (s : string) :
  count_char c (remove_char c s) = 0.
Proof.
  induction s as [|a s IH]; [reflexivity|]. cbn [remove_char].
  destruct (Ascii.eqb a c) eqn:E; [exact IH|].
  cbn [count_char]. rewrite E, IH. reflexivity.
Qed.

Section Spaces.

Context {libm : Libm}.

(** C8 (amended): before tokenization every space character [' '], and
    no other character, is removed from the input text; so compiling a
    text gives the same tokens, the same RPN and the same evaluation
    results as compiling it with every space deleted. *)
Theorem spaces_are_removed (exprText : string) (funcs : list CustomFunction.t) :
  text (Expression_new exprText funcs) = remove_char " " exprText
  /\ count_char " " (text (Expression_new exprText funcs)) = 0
  /\ Expression_new exprText funcs = Expression_new (remove_char " " exprText) funcs
  /\ tokens (Expression_new exprText funcs)
     = tokens (Expression_new (remove_char " " exprText) funcs)
  /\ rpn (Expression_new exprText funcs)
     = rpn (Expression_new (remove_char " " exprText) funcs)
  /\ (forall vars,
        eval_vars (Expression_new exprText funcs) vars
        = eval_vars (Expression_new (remove_char " " exprText) funcs) vars).
Proof.
  assert (E : Expression_new exprText funcs
              = Expression_new (remove_char " " exprText) funcs)
    by (unfold Expression_new; now rewrite remove_char_idempotent).
  split; [reflexivity|]. split; [apply count_char_removed|].
  split; [exact E|]. rewrite <- E. repeat split.
Qed.

End Spaces.

(** ** The shunting-yard converter *)

Lemma pops_iff (o2 o1 : string) :
  pops o2 o1 = true <->
  o2 <> "(" /\ (precedence o1 < precedence o2
                \/ (precedence o2 = precedence o1 /\ isLeftAssociative o1 = true)).
Proof.
  unfold pops.
  rewrite andb_true_iff, negb_true_iff, orb_true_iff, andb_true_iff,
    String.eqb_neq, Z.ltb_lt, Z.eqb_eq.
  reflexivity.
Qed.

Lemma getRPN_step_operator (funcs : list CustomFunction.t) (o1 : string)
      (rpn operators : list string) :
  isOperator o1 = true -> isFunction funcs o1 = None ->
  getRPN_step funcs (rpn, operators) o1 =
  (fst (pop_operators o1 rpn operators), o1 :: snd (pop_operators o1 rpn operators)).
Proof.
  intros Hop Hfun. unfold getRPN_step.
  pose proof (getNumber_operator o1 Hop) as Hnum.
  destruct (getNumber o1) as [number val]. cbn [fst] in Hnum. subst number.
  rewrite Hfun, Hop. now destruct (pop_operators o1 rpn operators).
Qed.

Lemma getRPN_step_operand (funcs : list CustomFunction.t) (token : string)
      (rpn operators : list string) :
  operand funcs token ->
  getRPN_step funcs (rpn, operators) token = (rpn ++ [emitted token], operators).
Proof.
  unfold operand, emitted, getRPN_step. intros Hop.
  destruct (getNumber token) as [number val]. cbn [fst snd] in *.
  destruct number; [reflexivity|].
  destruct Hop as [Hnum | (Hfun & Hnop & Hl & Hr)]; [discriminate|].
  apply String.eqb_neq in Hl, Hr. now rewrite Hfun, Hnop, Hl, Hr.
Qed.

(** The converter on [a ^ b ^ c]: the second [^] does not pop the first. *)
Lemma getRPN_power_chain (funcs : list CustomFunction.t) (a b c : string) :
  isFunction funcs "^" = None ->
  operand funcs a -> operand funcs b -> operand funcs c ->
  getRPN funcs [a; "^"; b; "^"; c] = [emitted a; emitted b; emitted c; "^"; "^"].
Proof.
  intros Hpow Ha Hb Hc. unfold getRPN, getRPN_loop. cbn [fold_left].
  rewrite (getRPN_step_operand _ _ _ _ Ha).
  rewrite (getRPN_step_operator funcs "^" _ _ eq_refl Hpow).
  cbn [pop_operators fst snd app].
  rewrite (getRPN_step_operand _ _ _ _ Hb).
  rewrite (getRPN_step_operator funcs "^" _ _ eq_refl Hpow).
  change (pop_operators "^" ([emitted a] ++ [emitted b]) ["^"])
    with ([emitted a] ++ [emitted b], ["^"]).
  cbn [fst snd]. rewrite (getRPN_step_operand _ _ _ _ Hc). reflexivity.
Qed.

(** The converter on [a - b - c]: the second [-] pops the first. *)
Lemma getRPN_minus_chain (funcs : list CustomFunction.t) (a b c : string) :
  isFunction funcs "-" = None ->
  operand funcs a -> operand funcs b -> operand funcs c ->
  getRPN funcs [a; "-"; b; "-"; c] = [emitted a; emitted b; "-"; emitted c; "-"].
Proof.
  intros Hmin Ha Hb Hc. unfold getRPN, getRPN_loop. cbn [fold_left].
  rewrite (getRPN_step_operand _ _ _ _ Ha).
  rewrite (getRPN_step_operator funcs "-" _ _ eq_refl Hmin).
  cbn [pop_operators fst snd app].
  rewrite (getRPN_step_operand _ _ _ _ Hb).
  rewrite (getRPN_step_operator funcs "-" _ _ eq_refl Hmin).
  change (pop_operators "-" ([emitted a] ++ [emitted b]) ["-"])
    with (([emitted a] ++ [emitted b]) ++ ["-"], @nil string).
  cbn [fst snd]. rewrite (getRPN_step_operand _ _ _ _ Hc). reflexivity.
Qed.

Section Converter.

Context {libm : Libm}.

(** The evaluator on the postfix form of [a ^ b ^ c]. *)
Lemma evalRPN_power_chain (funcs : list CustomFunction.t) (vars : list Var.t)
      (x y z : string) (va vb vc : float) :
  isFunction funcs "^" = None ->
  pushes funcs vars x va -> pushes funcs vars y vb -> pushes funcs vars z vc ->
  evalRPN funcs [x; y; z; "^"; "^"] vars = c_pow va (c_pow vb vc).
Proof.
  intros Hpow Hx Hy Hz. unfold evalRPN. cbn [evalRPN_loop].
  rewrite Hx, Hy, Hz.
  rewrite (evalRPN_step_operator funcs vars "^" _ eq_refl Hpow).
  cbn [isBinaryOperator String.eqb Ascii.eqb Bool.eqb orb andb List.length Nat.leb].
  rewrite (evalRPN_step_operator funcs vars "^" _ eq_refl Hpow).
  reflexivity.
Qed.

(** A name bound in the caller's list, and nothing else, is pushed with
    its value. *)
Lemma pushes_variable (funcs : list CustomFunction.t) (vars : list Var.t)
      (item : string) (v : float) :
  fst (getNumber item) = false -> isFunction funcs item = None ->
  isOperator item = false -> isVariable item vars = Some v ->
  pushes funcs vars item v.
Proof.
  intros Hnum Hfun Hop Hvar values.
  now rewrite evalRPN_step_variable, Hvar.
Qed.

Lemma variable_token_operand (funcs : list CustomFunction.t) (vars : list Var.t)
      (token : string) (v : float) :
  variable_token funcs vars token v ->
  operand funcs token /\ emitted token = token /\ pushes funcs vars token v.
Proof.
  intros (Hplain & Hnum & Hfun & Hvar).
  assert (Hop : isOperator token = false)
    by (unfold isVariable in Hvar; destruct (isOperator token);
        [discriminate | reflexivity]).
  split; [|split].
  - right. repeat split; try assumption; intros ->; discriminate.
  - unfold emitted. now rewrite Hnum.
  - now apply pushes_variable.
Qed.

(** The expression [a^b^c] over variables, from the text to the value. *)
Lemma eval_power_chain (funcs : list CustomFunction.t) (vars : list Var.t)
      (a b c : string) (va vb vc : float) :
  isFunction funcs "^" = None ->
  variable_token funcs vars a va ->
  variable_token funcs vars b vb ->
  variable_token funcs vars c vc ->
  eval_vars (Expression_new (a ++ "^" ++ b ++ "^" ++ c) funcs) vars
  = c_pow va (c_pow vb vc).
Proof.
  intros Hpow Ha Hb Hc. unfold eval_vars. cbn [Expression_new functions rpn].
  rewrite getTokens_power_chain by (apply Ha || apply Hb || apply Hc).
  apply variable_token_operand in Ha as (Ha & Ea & Pa).
  apply variable_token_operand in Hb as (Hb & Eb & Pb).
  apply variable_token_operand in Hc as (Hc & Ec & Pc).
  rewrite (getRPN_power_chain funcs a b c Hpow Ha Hb Hc), Ea, Eb, Ec.
  now apply evalRPN_power_chain.
Qed.

(** C3: when the converter reads an operator [o1], the operator [o2] on
    top of the stack is popped to the output if and only if [o2] is not
    ["("] and either [precedence o2 > precedence o1], or the precedences
    are equal and [o1] is left-associative.  So [^] and [~] are never
    popped for equal precedence and group right-to-left: for all operands
    [a], [b], [c] the tokens [a ^ b ^ c] become [a b c ^ ^], which
    evaluates to [pow(a, pow(b, c))]; ["2^3^2"] evaluates to
    [pow(2, pow(3, 2))], which is 512 (and not 64) as soon as [pow] is
    exact on these integers. *)
Theorem right_to_left_power :
  (forall funcs o1 rpn operators,
      isOperator o1 = true -> isFunction funcs o1 = None ->
      getRPN_step funcs (rpn, operators) o1 =
      (fst (pop_operators o1 rpn operators),
       o1 :: snd (pop_operators o1 rpn operators)))
  /\ (forall o1 o2 rpn operators,
        pop_operators o1 rpn (o2 :: operators) =
        if pops o2 o1 then pop_operators o1 (rpn ++ [o2]) operators
        else (rpn, o2 :: operators))
  /\ (forall o1 rpn, pop_operators o1 rpn [] = (rpn, []))
  /\ (forall o1 o2,
        pops o2 o1 = true <->
        o2 <> "(" /\ (precedence o1 < precedence o2
                      \/ (precedence o2 = precedence o1
                          /\ isLeftAssociative o1 = true)))
  /\ (pops "^" "^" = false /\ pops "~" "~" = false
      /\ pops "^" "~" = false /\ pops "~" "^" = false)
  /\ (forall funcs a b c,
        isFunction funcs "^" = None ->
        operand funcs a -> operand funcs b -> operand funcs c ->
        getRPN funcs [a; "^"; b; "^"; c]
        = [emitted a; emitted b; emitted c; "^"; "^"])
  /\ (forall funcs vars x y z va vb vc,
        isFunction funcs "^" = None ->
        pushes funcs vars x va -> pushes funcs vars y vb -> pushes funcs vars z vc ->
        evalRPN funcs [x; y; z; "^"; "^"] vars = c_pow va (c_pow vb vc))
  /\ (forall funcs vars a b c va vb vc,
        isFunction funcs "^" = None ->
        variable_token funcs vars a va ->
        variable_token funcs vars b vb ->
        variable_token funcs vars c vc ->
        eval_vars (Expression_new (a ++ "^" ++ b ++ "^" ++ c) funcs) vars
        = c_pow va (c_pow vb vc))
  /\ rpn (Expression_of "a^b^c") = ["a"; "b"; "c"; "^"; "^"]
  /\ (forall va vb vc,
        eval_vars (Expression_of "a^b^c")
                  [Var.mk "a" va; Var.mk "b" vb; Var.mk "c" vc]
        = c_pow va (c_pow vb vc))
  /\ rpn (Expression_of "2^3^2") = ["2"; "3"; "2"; "^"; "^"]
  /\ eval (Expression_of "2^3^2") = c_pow 2 (c_pow 3 2)
  /\ (c_pow 3 2 = 9%float -> c_pow 2 9 = 512%float ->
      eval (Expression_of "2^3^2") = 512%float
      /\ eval (Expression_of "2^3^2") <> 64%float).
Proof.
  split; [intros; now apply getRPN_step_operator|].
  split; [reflexivity|]. split; [reflexivity|].
  split; [intros; apply pops_iff|].
  split; [repeat split|].
  split; [intros; now apply getRPN_power_chain|].
  split; [intros; now apply evalRPN_power_chain|].
  split; [intros; now apply eval_power_chain|].
  split; [reflexivity|]. split; [intros; reflexivity|].
  split; [reflexivity|].
  assert (E : eval (Expression_of "2^3^2") = c_pow 2 (c_pow 3 2)) by reflexivity.
  split; [exact E|]. intros H9 H512. rewrite E, H9, H512.
  split; [reflexivity|]. intros H.
  apply (f_equal (fun x => PrimFloat.eqb x 512)) in H. vm_compute in H. discriminate.
Qed.

(** C4: unary negation [~] is not binary subtraction [-]: [~] is the
    unary operator, applied to one value [x] it gives [-x]; [-] is a
    binary operator, applied to [a] and [b] it gives [a - b].  Evaluated
    with the defaults, ["3-1"] gives 2, ["~3+1"] gives -2, ["~(1+2)"] gives
    -3, and ["~pi"] gives the negation of the default [pi], which is the
    [float] literal [3.141592654f], that is 0x1.921fb6p+1 as a [double]. *)
Theorem negation_and_subtraction :
  (isUnaryOperator "~" = true /\ isBinaryOperator "~" = false
   /\ isBinaryOperator "-" = true /\ isUnaryOperator "-" = false)
  /\ (forall x, calculateUnary x "~" = (- x)%float)
  /\ (forall a b, calculate a b "-" = (a - b)%float)
  /\ rpn (Expression_of "3-1") = ["3"; "1"; "-"]
  /\ eval (Expression_of "3-1") = 2%float
  /\ rpn (Expression_of "~3+1") = ["3"; "~"; "1"; "+"]
  /\ eval (Expression_of "~3+1") = (-2)%float
  /\ rpn (Expression_of "~(1+2)") = ["1"; "2"; "+"; "~"]
  /\ eval (Expression_of "~(1+2)") = (-3)%float
  /\ rpn (Expression_of "~pi") = ["pi"; "~"]
  /\ isVariable "pi" defaultVariables = Some 0x1.921fb6p+1%float
  /\ eval (Expression_of "pi") = 0x1.921fb6p+1%float
  /\ eval (Expression_of "~pi") = (- 0x1.921fb6p+1)%float.
Proof.
  split; [repeat split|]. split; [exact calculateUnary_negates|].
  split; [reflexivity|].
  repeat split; vm_compute; reflexivity.
Qed.

(** C10: the converter puts a numeric literal token into the output as
    [numberToString] of its value, that is with the six significant
    digits of a stream's default format; the literal is rounded when it
    has more: ["1.0000001"] compiles to the RPN token ["1"] and evaluates
    to exactly 1.0, which is not the value of the literal. *)
Theorem literal_is_reformatted :
  (forall funcs token val rpn operators,
      getNumber token = (true, val) ->
      getRPN_step funcs (rpn, operators) token
      = (rpn ++ [numberToString val], operators))
  /\ getNumber "1.0000001" = (true, 0x1.000001ad7f29bp+0%float)
  /\ numberToString 0x1.000001ad7f29bp+0%float = "1"
  /\ tokens (Expression_of "1.0000001") = ["1.0000001"]
  /\ rpn (Expression_of "1.0000001") = ["1"]
  /\ eval (Expression_of "1.0000001") = 1%float
  /\ PrimFloat.eqb 0x1.000001ad7f29bp+0 1 = false
  /\ rpn (Expression_of "1234567") = ["1.23457e+06"]
  /\ eval (Expression_of "1234567") = 1234570%float.
Proof.
  split.
  - intros funcs token val rpn operators Hnum. unfold getRPN_step.
    now rewrite Hnum.
  - repeat split; vm_compute; reflexivity.
Qed.

End Converter.

(** ** The tokens of a text *)

Lemma concat_tokens_app (ts1 ts2 : list string) :
  concat_tokens (ts1 ++ ts2) = (concat_tokens ts1 ++ concat_tokens ts2)%string.
Proof.
  induction ts1 as [|t ts1 IH]; [reflexivity|].
  cbn [app concat_tokens]. now rewrite IH, string_app_assoc.
Qed.

Lemma concat_push_nonempty (cur : string) :
  concat_tokens (push_nonempty [] cur) = cur.
Proof.
  destruct cur; [reflexivity|]. cbn [push_nonempty app concat_tokens].
  apply string_app_empty.
Qed.

(** The tokens of the scanning rule, put together, are the text. *)
Lemma scan_concat (rest : string) :
  forall cur, concat_tokens (scan rest cur) = (cur ++ rest)%string.
Proof.
  induction rest as [|c rest IH]; intros cur.
  - cbn [scan]. now rewrite concat_push_nonempty, string_app_empty.
  - cbn [scan]. destruct (mem_char c specials).
    + rewrite !concat_tokens_app, concat_push_nonempty, IH. reflexivity.
    + rewrite IH, string_app_assoc. reflexivity.
Qed.

Lemma separated_push (cur : string) (ts : list string) :
  free_of specials cur = true -> starts_special ts = true ->
  separated ts = true -> separated (push_nonempty [] cur ++ ts) = true.
Proof.
  intros Hcur Hts Hsep. destruct cur as [|c cur]; [exact Hsep|].
  cbn [push_nonempty app separated]. unfold word. rewrite Hcur, Hts, Hsep.
  cbn [String.eqb negb andb]. now rewrite orb_true_r.
Qed.

(** The scanning rule yields special characters and maximal words: the
    run in progress, then a sequence that starts with a special
    character. *)
Lemma scan_shape (rest : string) :
  forall cur, free_of specials cur = true ->
  exists w ts,
    scan rest cur = push_nonempty [] w ++ ts
    /\ free_of specials w = true
    /\ starts_special ts = true /\ separated ts = true.
Proof.
  induction rest as [|c rest IH]; intros cur Hcur.
  - exists cur, []. cbn [scan]. now rewrite app_nil_r.
  - cbn [scan]. destruct (mem_char c specials) eqn:Hc.
    + destruct (IH "" eq_refl) as (w & ts & Hscan & Hw & Hts & Hsep).
      exists cur, (String c "" :: scan rest "").
      split; [reflexivity|]. split; [exact Hcur|]. split.
      * cbn [starts_special special_token]. exact Hc.
      * cbn [separated special_token]. rewrite Hc, Hscan. cbn [orb andb].
        now apply separated_push.
    + apply IH. rewrite free_of_app, Hcur. cbn [free_of]. now rewrite Hc.
Qed.

Lemma scan_separated (text : string) : separated (scan text "") = true.
Proof.
  destruct (scan_shape text "" eq_refl) as (w & ts & Hscan & Hw & Hts & Hsep).
  rewrite Hscan. now apply separated_push.
Qed.

(** Scanning the concatenation of a separated sequence gives the
    sequence back. *)
Lemma scan_concat_tokens (ts : list string) :
  forall cur, free_of specials cur = true -> separated ts = true ->
  cur = "" \/ starts_special ts = true ->
  scan (concat_tokens ts) cur = push_nonempty [] cur ++ ts.
Proof.
  induction ts as [|t ts IH]; intros cur Hcur Hsep Hstart.
  - cbn [concat_tokens scan]. now rewrite app_nil_r.
  - cbn [separated] in Hsep. apply andb_true_iff in Hsep as [Ht Hsep].
    destruct (special_token t) eqn:Hspecial.
    + destruct t as [|c [|d t]]; try discriminate. cbn [special_token] in Hspecial.
      cbn [concat_tokens append scan]. rewrite Hspecial.
      now rewrite (IH "" eq_refl Hsep (or_introl eq_refl)).
    + cbn [orb] in Ht. apply andb_true_iff in Ht as [Hword Hnext].
      unfold word in Hword. apply andb_true_iff in Hword as [Hfree Hne].
      destruct Hstart as [-> | Hstart];
        [|cbn [starts_special] in Hstart; congruence].
      cbn [concat_tokens]. rewrite (scan_free _ _ _ Hfree). cbn [append].
      rewrite (IH t Hfree Hsep (or_intror Hnext)).
      destruct t; [discriminate | reflexivity].
Qed.

Lemma free_of_concat_tokens (chars : string) (ts : list string) :
  free_of chars (concat_tokens ts) = forallb (free_of chars) ts.
Proof.
  induction ts as [|t ts IH]; [reflexivity|].
  cbn [concat_tokens forallb]. now rewrite free_of_app, IH.
Qed.

(** The counter of [checkParenthesis] over two texts in a row. *)
Lemma checkParenthesis_loop_app (s1 s2 : string) :
  forall cnt,
  checkParenthesis_loop (s1 ++ s2) cnt
  = checkParenthesis_loop s2 (checkParenthesis_loop s1 cnt).
Proof.
  induction s1 as [|c s1 IH]; intros cnt; [reflexivity|].
  cbn [append checkParenthesis_loop]. destruct (Z.leb_spec 0 cnt) as [_|Hneg].
  - destruct (Ascii.eqb c "("); [apply IH|].
    destruct (Ascii.eqb c ")"); apply IH.
  - now rewrite checkParenthesis_loop_neg.
Qed.

Lemma getTokens_concat (text : string) :
  checkParenthesis text = true -> concat_tokens (getTokens text) = text.
Proof.
  intros Hchk. rewrite getTokens_scan, Hchk. apply scan_concat.
Qed.

(** X1: the tokens of [getTokens], put together, are the text again when
    the parentheses pass the check, and there is no token when they do
    not; every token is one special character or a non-empty run of
    ordinary characters, and no two runs are adjacent. *)
Theorem tokens_partition_text (text : string) :
  concat_tokens (getTokens text) = (if checkParenthesis text then text else "")
  /\ getTokens text = (if checkParenthesis text then getTokens text else [])
  /\ separated (getTokens text) = true.
Proof.
  rewrite getTokens_scan. destruct (checkParenthesis text).
  - split; [apply scan_concat|]. split; [reflexivity | apply scan_separated].
  - repeat split.
Qed.

Lemma getTokens_concat_tokens (ts : list string) :
  separated ts = true ->
  checkParenthesis (concat_tokens ts) = true ->
  getTokens (concat_tokens ts) = ts.
Proof.
  intros Hsep Hchk. rewrite getTokens_scan, Hchk.
  now rewrite (scan_concat_tokens ts "" eq_refl Hsep (or_introl eq_refl)).
Qed.

(** X2: tokenizing undoes concatenation: for every sequence of special
    characters and words in which no two words are adjacent, and whose
    text passes the parenthesis check, [getTokens] of the concatenated
    text is the sequence. *)
Theorem tokens_of_concat (ts : list string) :
  separated ts = true ->
  checkParenthesis (concat_tokens ts) = true ->
  getTokens (concat_tokens ts) = ts.
Proof. apply getTokens_concat_tokens. Qed.

(** ** The printable form *)

Lemma remove_char_app (c : ascii) (s1 s2 : string) :
  remove_char c (s1 ++ s2) = (remove_char c s1 ++ remove_char c s2)%string.
Proof.
  induction s1 as [|a s1 IH]; [reflexivity|]. cbn [append remove_char].
  destruct (Ascii.eqb a c); [exact IH|]. cbn [append]. now rewrite IH.
Qed.

Lemma free_of_removed (c : ascii) (s : string) :
  free_of (String c EmptyString) (remove_char c s) = true.
Proof.
  induction s as [|a s IH]; [reflexivity|]. cbn [remove_char].
  destruct (Ascii.eqb a c) eqn:E; [exact IH|].
  cbn [free_of mem_char]. now rewrite Ascii.eqb_sym, E, IH.
Qed.

Lemma remove_space_join_tokens (ts : list string) :
  forallb (free_of " ") ts = true ->
  remove_char " " (join_tokens ts) = concat_tokens ts.
Proof.
  induction ts as [|t ts IH]; [reflexivity|]. cbn [forallb join_tokens concat_tokens].
  intros H. apply andb_true_iff in H as [Ht Hts].
  rewrite !remove_char_app, (remove_char_free _ _ Ht), (IH Hts). reflexivity.
Qed.

Lemma str_stripped (exprText : string) (funcs : list CustomFunction.t) :
  remove_char " " (str (Expression_new exprText funcs))
  = if isBalanced (Expression_new exprText funcs)
    then remove_char " " exprText else "".
Proof.
  unfold str, isBalanced. cbn [Expression_new tokensStr balanced].
  destruct (checkParenthesis (remove_char " " exprText)) eqn:Hchk.
  - pose proof (getTokens_concat _ Hchk) as Hcat.
    rewrite remove_space_join_tokens; [exact Hcat|].
    rewrite <- free_of_concat_tokens, Hcat. apply free_of_removed.
  - rewrite getTokens_scan, Hchk. reflexivity.
Qed.

(** X3: the printable form [str()] is the tokens, each followed by a
    space; with the spaces removed it is the text the expression was
    compiled from (its input without spaces) when the parentheses are
    balanced, and it is empty when they are not. *)
Theorem str_without_spaces (exprText : string) (funcs : list CustomFunction.t) :
  remove_char " " (str (Expression_new exprText funcs))
  = if isBalanced (Expression_new exprText funcs)
    then remove_char " " exprText else "".
Proof. apply str_stripped. Qed.

Lemma Expression_new_stripped (text1 text2 : string) (funcs : list CustomFunction.t) :
  remove_char " " text1 = remove_char " " text2 ->
  Expression_new text1 funcs = Expression_new text2 funcs.
Proof.
  intros E. unfold Expression_new. now rewrite E.
Qed.

(** X18: compiling the printable form of an expression whose parentheses
    are balanced gives the expression again: the same text, tokens, RPN
    form and printable forms. *)
Theorem recompile_printable (exprText : string) (funcs : list CustomFunction.t) :
  isBalanced (Expression_new exprText funcs) = true ->
  Expression_new (str (Expression_new exprText funcs)) funcs
  = Expression_new exprText funcs.
Proof.
  intros Hbal. apply Expression_new_stripped.
  now rewrite str_stripped, Hbal.
Qed.

(** ** The parenthesis check decides balance *)

Lemma wrap_int_small (z : Z) : - 2 ^ 31 <= z < 2 ^ 31 -> wrap_int z = z.
Proof.
  unfold wrap_int. intros Hz. rewrite Z.mod_small by lia. lia.
Qed.

Lemma substring_0_1 (c : ascii) (s : string) :
  substring 0 1 (String c s) = String c EmptyString.
Proof. now rewrite substring_0_S, substring_0_0. Qed.

(** While no prefix goes negative and the counter cannot overflow, the
    loop counts the depth. *)
Lemma checkParenthesis_loop_depth (rest : string) :
  forall cnt, 0 <= cnt -> cnt + Z.of_nat (String.length rest) < 2 ^ 31 ->
  (forall n, 0 <= cnt + count_char "(" (substring 0 n rest)
                  - count_char ")" (substring 0 n rest)) ->
  checkParenthesis_loop rest cnt
  = cnt + count_char "(" rest - count_char ")" rest.
Proof.
  induction rest as [|c rest IH]; intros cnt Hcnt Hlen Hpre.
  - cbn [checkParenthesis_loop count_char]. lia.
  - cbn [checkParenthesis_loop]. destruct (Z.leb_spec 0 cnt) as [_|]; [|lia].
    cbn [String.length] in Hlen.
    pose proof (Hpre 1%nat) as H1. rewrite substring_0_1 in H1.
    cbn [count_char] in H1.
    assert (Hstep : forall d,
      (if Ascii.eqb c "(" then 1 else 0) - (if Ascii.eqb c ")" then 1 else 0) = d ->
      checkParenthesis_loop rest (cnt + d)
      = cnt + count_char "(" (String c rest) - count_char ")" (String c rest)).
    { intros d Hd.
      assert (Hd1 : -1 <= d <= 1)
        by (destruct (Ascii.eqb c "("), (Ascii.eqb c ")"); lia).
      rewrite IH; [cbn [count_char]; lia | lia | lia |].
      intros n. specialize (Hpre (S n)). rewrite substring_0_S in Hpre.
      cbn [count_char] in Hpre. lia. }
    destruct (Ascii.eqb_spec c "(") as [->|Hopen].
    + rewrite wrap_int_small by lia. now apply Hstep.
    + destruct (Ascii.eqb_spec c ")") as [->|Hclose].
      * rewrite wrap_int_small by (cbn in H1; lia). now apply (Hstep (-1)).
      * rewrite <- (Z.add_0_r cnt) at 1. now apply Hstep.
Qed.

(** X4: for a text shorter than [2^31] characters (so that the [int]
    counter cannot overflow), [checkParenthesis] returns true exactly
    when the parentheses are balanced: no prefix has more [')'] than
    ['('], and the text has as many of the one as of the other. *)
Theorem checkParenthesis_decides (text : string) :
  Z.of_nat (String.length text) < 2 ^ 31 ->
  (checkParenthesis text = true <-> ~ unbalanced text).
Proof.
  intros Hlen. split.
  - intros Hchk Hun. apply checkParenthesis_unbalanced in Hun. congruence.
  - intros Hbal. unfold checkParenthesis. apply Z.eqb_eq.
    assert (Hpre : forall n, 0 <= 0 + count_char "(" (substring 0 n text)
                              - count_char ")" (substring 0 n text)).
    { intros n.
      destruct (Z.lt_ge_cases (count_char "(" (substring 0 n text))
                              (count_char ")" (substring 0 n text))) as [Hlt|]; [|lia].
      exfalso. apply Hbal. left. now exists n. }
    rewrite checkParenthesis_loop_depth by (lia || exact Hpre).
    destruct (Z.eq_dec (count_char "(" text) (count_char ")" text)) as [|Hne]; [lia|].
    exfalso. apply Hbal. now right.
Qed.

(** ** Well-formed postfix sequences *)

Section Postfix.

Context {libm : Libm}.
Variable funcs : list CustomFunction.t.
Variable vars : list Var.t.

Lemma evalRPN_step_function (item : string) (func : float -> float)
      (values : list float) :
  fst (getNumber item) = false -> isFunction funcs item = Some func ->
  evalRPN_step funcs vars values item
  = match values with
    | [] => None
    | val :: values' => Some (func val :: values')
    end.
Proof.
  intros Hnum Hfun. unfold evalRPN_step.
  destruct (getNumber item) as [number val]. cbn [fst] in Hnum. subst number.
  now rewrite Hfun.
Qed.

(** The pass over a well-formed sequence pushes its value and goes on. *)
Lemma evalRPN_loop_postfix (p : list string) (v : float) :
  postfix funcs vars p v ->
  forall rest values,
  evalRPN_loop funcs vars (p ++ rest) values
  = evalRPN_loop funcs vars rest (v :: values).
Proof.
  induction 1 as [item v Hitem | p v _ IH Hfun | p q a b op _ IHp _ IHq Hbin Hfun
                  | p v name func _ IH Hnum Hfun]; intros rest values.
  - cbn [app evalRPN_loop]. now rewrite Hitem.
  - rewrite <- app_assoc, IH. cbn [app evalRPN_loop].
    rewrite (evalRPN_step_operator funcs vars "~" _ eq_refl Hfun).
    cbn [isBinaryOperator isUnaryOperator String.eqb Ascii.eqb Bool.eqb orb andb
         List.length Nat.ltb Nat.leb].
    now rewrite calculateUnary_negates.
  - rewrite <- !app_assoc, IHp, IHq. cbn [app evalRPN_loop].
    rewrite (evalRPN_step_operator funcs vars op _
               (isBinaryOperator_isOperator _ Hbin) Hfun), Hbin.
    reflexivity.
  - rewrite <- app_assoc, IH. cbn [app evalRPN_loop].
    now rewrite (evalRPN_step_function name func _ Hnum Hfun).
Qed.

Lemma evalRPN_of_postfix (p : list string) (v : float) :
  postfix funcs vars p v -> evalRPN funcs p vars = v.
Proof.
  intros Hp. unfold evalRPN.
  pose proof (evalRPN_loop_postfix p v Hp [] []) as Hloop.
  rewrite app_nil_r in Hloop. now rewrite Hloop.
Qed.

(** X5: [evalRPN] computes the value of every well-formed postfix
    sequence: operands pushed, [~] applied to the value before it, a
    binary operator to the two values before it (the left operand
    first), a function to the value before it. *)
Theorem evalRPN_postfix (p : list string) (v : float) :
  postfix funcs vars p v -> evalRPN funcs p vars = v.
Proof. apply evalRPN_of_postfix. Qed.

(** X6: a symbol that is no number, no function, no operator and no
    variable of the list is dropped without notice: every postfix
    sequence evaluates as if the symbol were not in it. *)
Theorem unresolved_symbol_dropped (name : string) (rpn : list string) :
  fst (getNumber name) = false -> isFunction funcs name = None ->
  isOperator name = false -> isVariable name vars = None ->
  evalRPN funcs rpn vars
  = evalRPN funcs (filter (fun t => negb (t =? name)%string) rpn) vars.
Proof.
  intros Hnum Hfun Hop Hvar. unfold evalRPN.
  rewrite (evalRPN_loop_unresolved funcs vars name); [reflexivity|].
  intros values. now rewrite evalRPN_step_variable, Hvar.
Qed.

End Postfix.

(** ** Variables that do not occur *)

Lemma isVariable_frame (item : string) (vars1 vars2 : list Var.t) (u : Var.t) :
  item <> Var.name u -> item <> ("~" ++ Var.name u)%string ->
  isVariable item (vars1 ++ u :: vars2) = isVariable item (vars1 ++ vars2).
Proof.
  intros H1 H2. unfold isVariable. destruct (isOperator item); [reflexivity|].
  induction vars1 as [|w vars1 IH]; cbn [app isVariable_loop].
  - assert (E1 : (Var.name u =? item)%string = false)
      by (apply String.eqb_neq; congruence).
    assert (E2 : ("~" ++ Var.name u =? item)%string = false)
      by (apply String.eqb_neq; congruence).
    now rewrite E1, E2.
  - now rewrite IH.
Qed.

Section Frame.

Context {libm : Libm}.

Lemma evalRPN_step_vars (funcs : list CustomFunction.t) (vars vars' : list Var.t)
      (values : list float) (item : string) :
  isVariable item vars = isVariable item vars' ->
  evalRPN_step funcs vars values item = evalRPN_step funcs vars' values item.
Proof.
  intros H. unfold evalRPN_step. now rewrite H.
Qed.

Lemma evalRPN_loop_vars (funcs : list CustomFunction.t) (vars vars' : list Var.t)
      (rpn : list string) :
  (forall item, In item rpn -> isVariable item vars = isVariable item vars') ->
  forall values,
  evalRPN_loop funcs vars rpn values = evalRPN_loop funcs vars' rpn values.
Proof.
  induction rpn as [|item rpn IH]; intros H values; [reflexivity|].
  cbn [evalRPN_loop].
  rewrite (evalRPN_step_vars funcs vars vars' values item (H item (or_introl eq_refl))).
  destruct (evalRPN_step funcs vars' values item); [|reflexivity].
  apply IH. intros t Ht. apply H. now right.
Qed.

Lemma evalRPN_frame (funcs : list CustomFunction.t) (rpn : list string)
      (vars1 vars2 : list Var.t) (u : Var.t) :
  ~ In (Var.name u) rpn -> ~ In ("~" ++ Var.name u)%string rpn ->
  evalRPN funcs rpn (vars1 ++ u :: vars2) = evalRPN funcs rpn (vars1 ++ vars2).
Proof.
  intros H1 H2. unfold evalRPN.
  rewrite (evalRPN_loop_vars funcs (vars1 ++ u :: vars2) (vars1 ++ vars2));
    [reflexivity|].
  intros item Hin. apply isVariable_frame; intros ->; contradiction.
Qed.

(** X7: a variable of the list whose name occurs in the postfix form
    neither plain nor behind [~] has no effect on the result: the entry
    can be removed from the list. *)
Theorem unused_variable (funcs : list CustomFunction.t) (rpn : list string)
        (vars1 vars2 : list Var.t) (u : Var.t) :
  ~ In (Var.name u) rpn -> ~ In ("~" ++ Var.name u)%string rpn ->
  evalRPN funcs rpn (vars1 ++ u :: vars2) = evalRPN funcs rpn (vars1 ++ vars2).
Proof. apply evalRPN_frame. Qed.

(** X8: [eval(double)] evaluates with the list [pi], [e], [x], in this
    order, [x] bound to the argument; when the postfix form has neither
    [x] nor [~x] it returns what [eval()] returns. *)
Theorem eval_x_binds_x (this : Expression) (val : float) :
  eval_x this val = eval_vars this (defaultVariables ++ [Var.mk "x" val])
  /\ (~ In "x" (rpn this) -> ~ In "~x" (rpn this) -> eval_x this val = eval this).
Proof.
  assert (E : eval_x this val = eval_vars this (defaultVariables ++ [Var.mk "x" val]))
    by reflexivity.
  split; [exact E|]. intros H1 H2. rewrite E. unfold eval, eval_vars.
  pose proof (evalRPN_frame (functions this) (rpn this) defaultVariables []
                (Var.mk "x" val) H1 H2) as Hx.
  now rewrite app_nil_r in Hx.
Qed.

End Frame.

(** ** The converter keeps the tokens *)

Lemma getNumber_not_parenthesis (token : string) :
  fst (getNumber token) = true -> not_parenthesis token = true.
Proof.
  intros Hnum. unfold not_parenthesis.
  destruct (String.eqb_spec token "(") as [->|_]; [discriminate|].
  destruct (String.eqb_spec token ")") as [->|_]; [discriminate|].
  reflexivity.
Qed.

Lemma isOperator_not_parenthesis (token : string) :
  isOperator token = true -> not_parenthesis token = true.
Proof.
  intros Hop. unfold not_parenthesis.
  destruct (String.eqb_spec token "(") as [->|_]; [discriminate|].
  destruct (String.eqb_spec token ")") as [->|_]; [discriminate|].
  reflexivity.
Qed.

Lemma not_parenthesis_intro (token : string) :
  token <> "(" -> token <> ")" -> not_parenthesis token = true.
Proof.
  intros H1 H2. unfold not_parenthesis.
  apply String.eqb_neq in H1, H2. now rewrite H1, H2.
Qed.

Lemma Permutation_output (A : Type) (r F X : list A) (x : A) :
  Permutation (r ++ F) X -> Permutation ((r ++ [x]) ++ F) (X ++ [x]).
Proof.
  intros H. rewrite <- app_assoc. cbn [app].
  etransitivity; [symmetry; apply Permutation_middle|].
  etransitivity; [apply perm_skip, H|]. apply Permutation_cons_append.
Qed.

Lemma Permutation_stack (A : Type) (r F X : list A) (x : A) :
  Permutation (r ++ F) X -> Permutation (r ++ x :: F) (X ++ [x]).
Proof.
  intros H. etransitivity; [symmetry; apply Permutation_middle|].
  etransitivity; [apply perm_skip, H|]. apply Permutation_cons_append.
Qed.

Lemma pop_operators_keeps (token : string) (operators : list string) :
  forall rpn, no_right operators ->
  fst (pop_operators token rpn operators)
    ++ filter not_parenthesis (snd (pop_operators token rpn operators))
  = rpn ++ filter not_parenthesis operators
  /\ no_right (snd (pop_operators token rpn operators)).
Proof.
  induction operators as [|top operators IH]; intros rpn Hno; [now split|].
  cbn [pop_operators]. inversion Hno as [|? ? Htop Hrest]; subst.
  destruct (pops top token) eqn:Hpops; [|now split].
  destruct (IH (rpn ++ [top]) Hrest) as [E Hno']. split; [|exact Hno'].
  rewrite E, <- app_assoc. cbn [app filter].
  apply pops_iff in Hpops as [Hopen _].
  now rewrite (not_parenthesis_intro top Hopen Htop).
Qed.

Lemma pop_to_paren_keeps (operators : list string) :
  forall rpn, no_right operators ->
  fst (pop_to_paren rpn operators)
    ++ filter not_parenthesis (snd (pop_to_paren rpn operators))
  = rpn ++ filter not_parenthesis operators
  /\ no_right (snd (pop_to_paren rpn operators)).
Proof.
  induction operators as [|top operators IH]; intros rpn Hno; [now split|].
  cbn [pop_to_paren]. inversion Hno as [|? ? Htop Hrest]; subst.
  destruct (String.eqb_spec top "(") as [->|Hopen]; cbn [negb]; [now split|].
  destruct (IH (rpn ++ [top]) Hrest) as [E Hno']. split; [|exact Hno'].
  rewrite E, <- app_assoc. cbn [app filter].
  now rewrite (not_parenthesis_intro top Hopen Htop).
Qed.

Lemma pop_all_keeps (operators : list string) :
  forall rpn, no_right operators ->
  pop_all rpn operators = rpn ++ filter not_parenthesis operators.
Proof.
  induction operators as [|op operators IH]; intros rpn Hno.
  - cbn [pop_all filter]. now rewrite app_nil_r.
  - cbn [pop_all]. inversion Hno as [|? ? Hop Hrest]; subst.
    destruct (String.eqb_spec op "(") as [->|Hopen]; cbn [negb].
    + now rewrite IH.
    + rewrite IH, <- app_assoc by assumption. cbn [app filter].
      now rewrite (not_parenthesis_intro op Hopen Hop).
Qed.

Section Conservation.

Variable funcs : list CustomFunction.t.
Hypothesis no_function_open : isFunction funcs "(" = None.
Hypothesis no_function_close : isFunction funcs ")" = None.

Lemma isFunction_not_parenthesis (token : string) (func : float -> float) :
  isFunction funcs token = Some func -> not_parenthesis token = true.
Proof.
  intros Hfun. apply not_parenthesis_intro; intros ->; congruence.
Qed.

(** One step of the converter: the output and the stack together gain
    the token, as it is emitted, unless it is a parenthesis. *)
Lemma getRPN_step_keeps (st : list string * list string) (token : string)
      (X : list string) :
  Permutation (fst st ++ filter not_parenthesis (snd st)) X ->
  no_right (snd st) ->
  Permutation (fst (getRPN_step funcs st token)
                 ++ filter not_parenthesis (snd (getRPN_step funcs st token)))
              (X ++ map emitted (filter not_parenthesis [token]))
  /\ no_right (snd (getRPN_step funcs st token)).
Proof.
  destruct st as [rpn operators]. cbn [fst snd]. intros HX Hno.
  unfold getRPN_step, emitted.
  destruct (getNumber token) as [number val] eqn:Hnum. cbn [fst snd].
  destruct number.
  { assert (Hnp : not_parenthesis token = true)
      by (apply getNumber_not_parenthesis; now rewrite Hnum).
    cbn [filter fst snd]. rewrite Hnp. cbn [map]. rewrite Hnum. cbn [fst snd].
    split; [now apply Permutation_output | exact Hno]. }
  destruct (isFunction funcs token) as [func|] eqn:Hfun.
  { pose proof (isFunction_not_parenthesis _ _ Hfun) as Hnp.
    cbn [filter fst snd]. rewrite Hnp. cbn [map]. rewrite Hnum. cbn [fst].
    split; [now apply Permutation_stack|].
    constructor; [intros ->; congruence | exact Hno]. }
  destruct (isOperator token) eqn:Hop.
  { pose proof (isOperator_not_parenthesis _ Hop) as Hnp.
    destruct (pop_operators_keeps token operators rpn Hno) as [E Hno'].
    destruct (pop_operators token rpn operators) as [rpn' operators'].
    cbn [fst snd] in *. cbn [filter]. rewrite Hnp. cbn [map]. rewrite Hnum. cbn [fst].
    split.
    - apply Permutation_stack. now rewrite E.
    - constructor; [intros ->; discriminate | exact Hno']. }
  destruct (String.eqb_spec token "(") as [->|Hopen].
  { cbn [fst snd filter not_parenthesis String.eqb Ascii.eqb Bool.eqb negb andb map].
    rewrite app_nil_r. split; [exact HX|]. constructor; [discriminate | exact Hno]. }
  destruct (String.eqb_spec token ")") as [->|Hclose].
  { cbn [filter not_parenthesis String.eqb Ascii.eqb Bool.eqb negb andb map].
    rewrite app_nil_r.
    destruct (pop_to_paren_keeps operators rpn Hno) as [E Hno'].
    destruct (pop_to_paren rpn operators) as [rpn' operators'].
    cbn [fst snd] in *.
    assert (Hdrop : exists operators'',
              (match operators' with
               | top :: rest => if (top =? "(")%string then rest else operators'
               | [] => operators'
               end) = operators''
              /\ filter not_parenthesis operators'' = filter not_parenthesis operators'
              /\ no_right operators'').
    { destruct operators' as [|top rest]; [now exists []|].
      destruct (String.eqb_spec top "(") as [->|_].
      - exists rest. repeat split. now inversion Hno'.
      - now exists (top :: rest). }
    destruct Hdrop as (operators'' & -> & Efilter & Hno'').
    destruct operators'' as [|top rest].
    - cbn [fst snd]. rewrite Efilter, E. now split.
    - destruct (isFunction funcs top) as [func|] eqn:Htop; cbn [fst snd].
      + pose proof (isFunction_not_parenthesis _ _ Htop) as Hnp.
        split; [|now inversion Hno''].
        rewrite <- app_assoc. cbn [app].
        assert (Eq : rpn' ++ top :: filter not_parenthesis rest
                     = rpn ++ filter not_parenthesis operators)
          by (rewrite <- E, <- Efilter; cbn [filter]; now rewrite Hnp).
        now rewrite Eq.
      + rewrite Efilter, E. now split. }
  pose proof (not_parenthesis_intro _ Hopen Hclose) as Hnp.
  cbn [filter fst snd]. rewrite Hnp. cbn [map]. rewrite Hnum. cbn [fst].
  split; [now apply Permutation_output | exact Hno].
Qed.

Lemma getRPN_loop_keeps (tokens : list string) :
  forall st X,
  Permutation (fst st ++ filter not_parenthesis (snd st)) X ->
  no_right (snd st) ->
  Permutation (fst (getRPN_loop funcs tokens st)
                 ++ filter not_parenthesis (snd (getRPN_loop funcs tokens st)))
              (X ++ map emitted (filter not_parenthesis tokens))
  /\ no_right (snd (getRPN_loop funcs tokens st)).
Proof.
  unfold getRPN_loop.
  induction tokens as [|token tokens IH]; intros st X HX Hno.
  - cbn [fold_left filter map]. now rewrite app_nil_r.
  - cbn [fold_left].
    destruct (getRPN_step_keeps st token X HX Hno) as [HX' Hno'].
    destruct (IH _ _ HX' Hno') as [HX'' Hno'']. split; [|exact Hno''].
    rewrite <- app_assoc, <- map_app in HX''.
    replace (filter not_parenthesis [token] ++ filter not_parenthesis tokens)
      with (filter not_parenthesis (token :: tokens)) in HX''; [exact HX''|].
    cbn [filter]. now destruct (not_parenthesis token).
Qed.

Lemma getRPN_conserves (tokens : list string) :
  Permutation (getRPN funcs tokens)
              (map emitted (filter not_parenthesis tokens)).
Proof.
  unfold getRPN.
  destruct (getRPN_loop_keeps tokens ([], []) [] (Permutation_refl _)
              (Forall_nil _)) as [HX Hno].
  destruct (getRPN_loop funcs tokens ([], [])) as [rpn operators].
  cbn [fst snd app] in *. now rewrite pop_all_keeps.
Qed.

(** X9: the converter loses and invents nothing: when neither ["("] nor
    [")"] names a function, the RPN form is a rearrangement of the input
    tokens without the parentheses, each numeric literal replaced by its
    printed value. *)
Theorem getRPN_keeps_tokens (tokens : list string) :
  Permutation (getRPN funcs tokens)
              (map emitted (filter not_parenthesis tokens)).
Proof. apply getRPN_conserves. Qed.

End Conservation.

(** ** No parenthesis in the postfix form *)

(** The characters of a string, as a property of each. *)
Lemma free_of_forallb (chars s : string) :
  free_of chars s
  = forallb (fun c => negb (mem_char c chars)) (list_ascii_of_string s).
Proof.
  induction s as [|c s IH]; [reflexivity|].
  cbn [free_of list_ascii_of_string forallb]. now rewrite IH.
Qed.

Lemma free_of_substring (chars s : string) :
  free_of chars s = true -> forall n m, free_of chars (substring n m s) = true.
Proof.
  induction s as [|c s IH]; intros Hs n m.
  - destruct n, m; reflexivity.
  - cbn [free_of] in Hs. apply andb_true_iff in Hs as [Hc Hs].
    destruct n as [|n]; [destruct m as [|m]|]; cbn [substring]; try reflexivity.
    + cbn [free_of]. now rewrite Hc, IH.
    + now apply IH.
Qed.

Lemma strip_zeros_rev_incl (l : list ascii) (c : ascii) :
  In c (CLib.strip_zeros_rev l) -> In c l.
Proof.
  induction l as [|a l IH]; [easy|]. cbn [CLib.strip_zeros_rev].
  destruct (Ascii.eqb_spec a "0") as [->|Hne].
  - intros H. right. now apply IH.
  - destruct a as [[] [] [] [] [] [] [] []]; try (intros H; exact H).
    congruence.
Qed.

Lemma free_of_strip_zeros (chars s : string) :
  free_of chars s = true -> free_of chars (CLib.strip_zeros s) = true.
Proof.
  rewrite !free_of_forallb. unfold CLib.strip_zeros.
  rewrite list_ascii_of_string_of_list_ascii, !forallb_forall.
  intros Hs c Hc. apply Hs. apply in_rev in Hc.
  apply strip_zeros_rev_incl in Hc. now apply in_rev.
Qed.

Lemma digit_char_not_parenthesis (d : Z) :
  0 <= d < 10 -> mem_char (CLib.digit_char d) "()" = false.
Proof.
  intros Hd.
  assert (H : d = 0 \/ d = 1 \/ d = 2 \/ d = 3 \/ d = 4 \/ d = 5 \/ d = 6
              \/ d = 7 \/ d = 8 \/ d = 9) by lia.
  destruct H as [->|[->|[->|[->|[->|[->|[->|[->|[->| ->]]]]]]]]]; reflexivity.
Qed.

Lemma free_of_fixed_digits (w : nat) :
  forall z, free_of "()" (CLib.fixed_digits w z) = true.
Proof.
  induction w as [|w IH]; intros z; [reflexivity|].
  cbn [CLib.fixed_digits]. rewrite free_of_app, IH. cbn [free_of andb].
  rewrite digit_char_not_parenthesis; [reflexivity|].
  apply Z.mod_pos_bound. lia.
Qed.

Lemma free_of_zeros (k : nat) : free_of "()" (CLib.zeros k) = true.
Proof. induction k as [|k IH]; [reflexivity | exact IH]. Qed.

Lemma free_of_with_fraction (int frac : string) :
  free_of "()" int = true -> free_of "()" frac = true ->
  free_of "()" (CLib.with_fraction int frac) = true.
Proof.
  intros Hint Hfrac. unfold CLib.with_fraction.
  pose proof (free_of_strip_zeros "()" frac Hfrac) as Hstrip.
  destruct (CLib.strip_zeros frac) as [|c f]; [exact Hint|].
  rewrite !free_of_app, Hint, Hstrip. reflexivity.
Qed.

Lemma free_of_fmt_exponent (x : Z) : free_of "()" (CLib.fmt_exponent x) = true.
Proof.
  unfold CLib.fmt_exponent. rewrite !free_of_app.
  destruct (x <? 0), (Z.abs x <? 100); rewrite free_of_fixed_digits; reflexivity.
Qed.

Lemma free_of_fmt_positive (n d : Z) : free_of "()" (CLib.fmt_positive n d) = true.
Proof.
  unfold CLib.fmt_positive. destruct (CLib.six_digits n d) as [q x].
  pose proof (free_of_fixed_digits 6 q) as Hds.
  destruct ((x <? -4) || (6 <=? x)).
  - rewrite free_of_app, free_of_fmt_exponent, andb_true_r.
    apply free_of_with_fraction; now apply free_of_substring.
  - destruct (0 <=? x).
    + apply free_of_with_fraction; now apply free_of_substring.
    + apply free_of_with_fraction; [reflexivity|].
      now rewrite free_of_app, free_of_zeros, Hds.
Qed.

(** A printed number has no parenthesis. *)
Lemma free_of_numberToString (val : float) :
  free_of "()" (numberToString val) = true.
Proof.
  unfold numberToString, CLib.fmt_double.
  destruct (Prim2SF val) as [s|s| |s m e];
    try reflexivity; try (destruct s; reflexivity).
  cbv beta iota zeta. rewrite free_of_app.
  destruct (0 <=? e); rewrite free_of_fmt_positive; destruct s; reflexivity.
Qed.

Lemma emitted_not_parenthesis (token : string) :
  not_parenthesis token = true -> not_parenthesis (emitted token) = true.
Proof.
  intros Hnp. unfold emitted. destruct (fst (getNumber token)); [|exact Hnp].
  pose proof (free_of_numberToString (snd (getNumber token))) as Hfree.
  apply not_parenthesis_intro; intros E; rewrite E in Hfree; discriminate.
Qed.

(** X10: the RPN form has no parenthesis, and as many tokens as the input
    has tokens that are no parenthesis (when neither ["("] nor [")"]
    names a function). *)
Theorem getRPN_no_parenthesis (funcs : list CustomFunction.t) (tokens : list string) :
  isFunction funcs "(" = None -> isFunction funcs ")" = None ->
  Forall (fun t => t <> "(" /\ t <> ")") (getRPN funcs tokens)
  /\ List.length (getRPN funcs tokens)
     = List.length (filter not_parenthesis tokens).
Proof.
  intros Hopen Hclose.
  pose proof (getRPN_conserves funcs Hopen Hclose tokens) as Hperm.
  split.
  - apply Forall_forall. intros t Ht.
    apply (Permutation_in _ Hperm), in_map_iff in Ht as (t0 & <- & Ht0).
    apply filter_In in Ht0 as [_ Hnp]. apply emitted_not_parenthesis in Hnp.
    unfold not_parenthesis in Hnp.
    apply andb_true_iff in Hnp as [H1 H2].
    apply negb_true_iff, String.eqb_neq in H1, H2. now split.
  - rewrite (Permutation_length Hperm). apply length_map.
Qed.

(** ** From the text to the value *)

Lemma checkParenthesis_loop_tokens (ts : list string) :
  forall cnt,
  checkParenthesis_loop (concat_tokens ts) cnt
  = fold_left (fun c t => checkParenthesis_loop t c) ts cnt.
Proof.
  induction ts as [|t ts IH]; intros cnt; [reflexivity|].
  cbn [concat_tokens fold_left]. now rewrite checkParenthesis_loop_app, IH.
Qed.

Lemma plain_word (t : string) :
  plain t = true ->
  word t = true /\ free_of " " t = true /\ free_of "()" t = true.
Proof.
  intros Hp. apply plain_parts in Hp as (Hfree & Hspace & Hne).
  unfold word. apply String.eqb_neq in Hne.
  rewrite Hfree, Hne, (free_of_parentheses _ Hfree). now repeat split.
Qed.

Lemma isBinaryOperator_special (op : string) :
  isBinaryOperator op = true ->
  special_token op = true /\ free_of " " op = true /\ free_of "()" op = true
  /\ (op =? "(")%string = false.
Proof.
  intros H.
  apply isBinaryOperator_cases in H as [->|[->|[->|[->| ->]]]]; now repeat split.
Qed.

Lemma getNumber_open : getNumber "(" = (false, 0%float).
Proof. reflexivity. Qed.

Lemma getNumber_close : getNumber ")" = (false, 0%float).
Proof. reflexivity. Qed.

Lemma getRPN_step_open (funcs : list CustomFunction.t) (rpn operators : list string) :
  isFunction funcs "(" = None ->
  getRPN_step funcs (rpn, operators) "(" = (rpn, "(" :: operators).
Proof.
  intros Hfun. unfold getRPN_step. now rewrite getNumber_open, Hfun.
Qed.

Lemma getRPN_step_close (funcs : list CustomFunction.t) (rpn operators : list string) :
  isFunction funcs ")" = None ->
  getRPN_step funcs (rpn, operators) ")"
  = let '(rpn, operators) := pop_to_paren rpn operators in
    let operators :=
      match operators with
      | top :: operators' => if (top =? "(")%string then operators' else operators
      | [] => operators
      end in
    match operators with
    | top :: operators' =>
        match isFunction funcs top with
        | Some _ => (rpn ++ [top], operators')
        | None => (rpn, operators)
        end
    | [] => (rpn, operators)
    end.
Proof.
  intros Hfun. unfold getRPN_step. now rewrite getNumber_close, Hfun.
Qed.

Lemma getRPN_step_function (funcs : list CustomFunction.t) (token : string)
      (func : float -> float) (rpn operators : list string) :
  fst (getNumber token) = false -> isFunction funcs token = Some func ->
  getRPN_step funcs (rpn, operators) token = (rpn, token :: operators).
Proof.
  intros Hnum Hfun. unfold getRPN_step.
  destruct (getNumber token) as [number val]. cbn [fst] in Hnum. subst number.
  now rewrite Hfun.
Qed.

Section Compositions.

Context {libm : Libm}.
Variable funcs : list CustomFunction.t.
Variable vars : list Var.t.

(** Compiling the concatenation of a sequence of tokens. *)
Lemma compile_concat_tokens (ts : list string) :
  separated ts = true -> forallb (free_of " ") ts = true ->
  checkParenthesis (concat_tokens ts) = true ->
  forall vs,
  eval_vars (Expression_new (concat_tokens ts) funcs) vs
  = evalRPN funcs (getRPN funcs ts) vs.
Proof.
  intros Hsep Hspace Hchk vs. unfold eval_vars. cbn [Expression_new functions rpn].
  rewrite remove_char_free by now rewrite free_of_concat_tokens.
  now rewrite getTokens_concat_tokens.
Qed.

Lemma checkParenthesis_flat (ts : list string) :
  forallb (free_of "()") ts = true -> checkParenthesis (concat_tokens ts) = true.
Proof.
  intros H. unfold checkParenthesis.
  rewrite checkParenthesis_loop_free; [reflexivity|].
  now rewrite free_of_concat_tokens.
Qed.

Lemma variable_token_parts (token : string) (v : float) :
  variable_token funcs vars token v ->
  word token = true /\ free_of " " token = true /\ free_of "()" token = true
  /\ operand funcs token /\ emitted token = token
  /\ postfix funcs vars [token] v.
Proof.
  intros Hv. pose proof (proj1 Hv) as Hplain.
  apply plain_word in Hplain as (Hw & Hs & Hp).
  apply variable_token_operand in Hv as (Hop & Eem & Hpush).
  repeat split; try assumption. now constructor.
Qed.

(** The converter on [a o1 b o2 c]. *)
Lemma getRPN_binary_chain (a b c o1 o2 : string) :
  operand funcs a -> operand funcs b -> operand funcs c ->
  binary_token funcs o1 -> binary_token funcs o2 ->
  getRPN funcs [a; o1; b; o2; c]
  = if pops o1 o2 then [emitted a; emitted b; o1; emitted c; o2]
    else [emitted a; emitted b; emitted c; o2; o1].
Proof.
  intros Ha Hb Hc [Hb1 Hf1] [Hb2 Hf2].
  pose proof (isBinaryOperator_special _ Hb1) as (_ & _ & _ & Ho1).
  pose proof (isBinaryOperator_special _ Hb2) as (_ & _ & _ & Ho2).
  unfold getRPN, getRPN_loop. cbn [fold_left].
  rewrite (getRPN_step_operand _ _ _ _ Ha).
  rewrite (getRPN_step_operator funcs o1 _ _ (isBinaryOperator_isOperator _ Hb1) Hf1).
  cbn [pop_operators fst snd app].
  rewrite (getRPN_step_operand _ _ _ _ Hb).
  rewrite (getRPN_step_operator funcs o2 _ _ (isBinaryOperator_isOperator _ Hb2) Hf2).
  cbn [pop_operators app]. destruct (pops o1 o2); cbn [fst snd app].
  - rewrite (getRPN_step_operand _ _ _ _ Hc). cbn [pop_all app].
    now rewrite Ho2.
  - rewrite (getRPN_step_operand _ _ _ _ Hc). cbn [pop_all app].
    now rewrite Ho2, Ho1.
Qed.

(** X11: precedence and associativity decide the grouping of two binary
    operators: for variables [a], [b], [c], the text [a o1 b o2 c]
    evaluates to [(a o1 b) o2 c] when [o1] has the greater precedence, or
    the same and [o2] is left-associative, and to [a o1 (b o2 c)]
    otherwise. *)
Theorem binary_chain_grouping (a b c o1 o2 : string) (va vb vc : float) :
  variable_token funcs vars a va ->
  variable_token funcs vars b vb ->
  variable_token funcs vars c vc ->
  binary_token funcs o1 -> binary_token funcs o2 ->
  eval_vars (Expression_new (concat_tokens [a; o1; b; o2; c]) funcs) vars
  = if pops o1 o2 then calculate (calculate va vb o1) vc o2
    else calculate va (calculate vb vc o2) o1.
Proof.
  intros Ha Hb Hc H1 H2.
  apply variable_token_parts in Ha as (Wa & Sa & Pa & Oa & Ea & Xa).
  apply variable_token_parts in Hb as (Wb & Sb & Pb & Ob & Eb & Xb).
  apply variable_token_parts in Hc as (Wc & Sc & Pc & Oc & Ec & Xc).
  pose proof (isBinaryOperator_special _ (proj1 H1)) as (T1 & S1 & P1 & _).
  pose proof (isBinaryOperator_special _ (proj1 H2)) as (T2 & S2 & P2 & _).
  rewrite compile_concat_tokens.
  - rewrite (getRPN_binary_chain a b c o1 o2 Oa Ob Oc H1 H2), Ea, Eb, Ec.
    destruct H1 as [B1 F1], H2 as [B2 F2]. destruct (pops o1 o2).
    + apply (evalRPN_of_postfix funcs vars (([a] ++ [b] ++ [o1]) ++ [c] ++ [o2])).
      exact (postfix_binary funcs vars _ _ _ _ o2
               (postfix_binary funcs vars _ _ _ _ o1 Xa Xb B1 F1) Xc B2 F2).
    + apply (evalRPN_of_postfix funcs vars ([a] ++ ([b] ++ [c] ++ [o2]) ++ [o1])).
      exact (postfix_binary funcs vars _ _ _ _ o1 Xa
               (postfix_binary funcs vars _ _ _ _ o2 Xb Xc B2 F2) B1 F1).
  - cbn [separated starts_special]. rewrite Wa, Wb, Wc, T1, T2.
    destruct (special_token a), (special_token b), (special_token c); reflexivity.
  - cbn [forallb]. now rewrite Sa, Sb, Sc, S1, S2.
  - apply checkParenthesis_flat. cbn [forallb]. now rewrite Pa, Pb, Pc, P1, P2.
Qed.

(** The converter on [( a o1 b ) o2 c] and on [a o1 ( b o2 c )]. *)
Lemma getRPN_parenthesized (a b c o1 o2 : string) :
  isFunction funcs "(" = None -> isFunction funcs ")" = None ->
  operand funcs a -> operand funcs b -> operand funcs c ->
  binary_token funcs o1 -> binary_token funcs o2 ->
  getRPN funcs ["("; a; o1; b; ")"; o2; c]
  = [emitted a; emitted b; o1; emitted c; o2]
  /\ getRPN funcs [a; o1; "("; b; o2; c; ")"]
     = [emitted a; emitted b; emitted c; o2; o1].
Proof.
  intros Hopen Hclose Ha Hb Hc [Hb1 Hf1] [Hb2 Hf2].
  pose proof (isBinaryOperator_special _ Hb1) as (_ & _ & _ & Ho1).
  pose proof (isBinaryOperator_special _ Hb2) as (_ & _ & _ & Ho2).
  pose proof (isBinaryOperator_isOperator _ Hb1) as Hop1.
  pose proof (isBinaryOperator_isOperator _ Hb2) as Hop2.
  split; unfold getRPN, getRPN_loop; cbn [fold_left].
  - rewrite (getRPN_step_open funcs _ _ Hopen).
    rewrite (getRPN_step_operand _ _ _ _ Ha).
    rewrite (getRPN_step_operator funcs o1 _ _ Hop1 Hf1).
    cbn [pop_operators pops String.eqb Ascii.eqb Bool.eqb negb andb fst snd app].
    rewrite (getRPN_step_operand _ _ _ _ Hb).
    rewrite (getRPN_step_close funcs _ _ Hclose).
    cbn [pop_to_paren]. rewrite Ho1.
    cbn [negb pop_to_paren String.eqb Ascii.eqb Bool.eqb app].
    rewrite (getRPN_step_operator funcs o2 _ _ Hop2 Hf2).
    cbn [pop_operators fst snd].
    rewrite (getRPN_step_operand _ _ _ _ Hc). cbn [pop_all app].
    now rewrite Ho2.
  - rewrite (getRPN_step_operand _ _ _ _ Ha).
    rewrite (getRPN_step_operator funcs o1 _ _ Hop1 Hf1).
    cbn [pop_operators fst snd app].
    rewrite (getRPN_step_open funcs _ _ Hopen).
    rewrite (getRPN_step_operand _ _ _ _ Hb).
    rewrite (getRPN_step_operator funcs o2 _ _ Hop2 Hf2).
    cbn [pop_operators pops String.eqb Ascii.eqb Bool.eqb negb andb fst snd app].
    rewrite (getRPN_step_operand _ _ _ _ Hc).
    rewrite (getRPN_step_close funcs _ _ Hclose).
    cbn [pop_to_paren]. rewrite Ho2.
    cbn [negb pop_to_paren String.eqb Ascii.eqb Bool.eqb app].
    rewrite Hf1. cbn [pop_all app]. now rewrite Ho1.
Qed.

(** X12: parentheses decide the grouping whatever the precedences: for
    variables [a], [b], [c] and binary operators [o1], [o2], the text
    [(a o1 b) o2 c] evaluates to [(a o1 b) o2 c] and the text
    [a o1 (b o2 c)] to [a o1 (b o2 c)]. *)
Theorem parentheses_group (a b c o1 o2 : string) (va vb vc : float) :
  isFunction funcs "(" = None -> isFunction funcs ")" = None ->
  variable_token funcs vars a va ->
  variable_token funcs vars b vb ->
  variable_token funcs vars c vc ->
  binary_token funcs o1 -> binary_token funcs o2 ->
  eval_vars (Expression_new (concat_tokens ["("; a; o1; b; ")"; o2; c]) funcs) vars
  = calculate (calculate va vb o1) vc o2
  /\ eval_vars (Expression_new (concat_tokens [a; o1; "("; b; o2; c; ")"]) funcs) vars
     = calculate va (calculate vb vc o2) o1.
Proof.
  intros Hopen Hclose Ha Hb Hc H1 H2.
  apply variable_token_parts in Ha as (Wa & Sa & Pa & Oa & Ea & Xa).
  apply variable_token_parts in Hb as (Wb & Sb & Pb & Ob & Eb & Xb).
  apply variable_token_parts in Hc as (Wc & Sc & Pc & Oc & Ec & Xc).
  pose proof (isBinaryOperator_special _ (proj1 H1)) as (T1 & S1 & P1 & _).
  pose proof (isBinaryOperator_special _ (proj1 H2)) as (T2 & S2 & P2 & _).
  destruct (getRPN_parenthesized a b c o1 o2 Hopen Hclose Oa Ob Oc H1 H2)
    as [Eleft Eright].
  destruct H1 as [B1 F1], H2 as [B2 F2]. split.
  - rewrite compile_concat_tokens.
    + rewrite Eleft, Ea, Eb, Ec.
      apply (evalRPN_of_postfix funcs vars (([a] ++ [b] ++ [o1]) ++ [c] ++ [o2])).
      exact (postfix_binary funcs vars _ _ _ _ o2
               (postfix_binary funcs vars _ _ _ _ o1 Xa Xb B1 F1) Xc B2 F2).
    + cbn [separated starts_special]. rewrite Wa, Wb, Wc, T1, T2.
      destruct (special_token a), (special_token b), (special_token c); reflexivity.
    + cbn [forallb]. now rewrite Sa, Sb, Sc, S1, S2.
    + unfold checkParenthesis. rewrite checkParenthesis_loop_tokens. cbn [fold_left].
      rewrite (checkParenthesis_loop_free c), (checkParenthesis_loop_free o2)
        by assumption.
      rewrite (checkParenthesis_loop_free b), (checkParenthesis_loop_free o1),
        (checkParenthesis_loop_free a) by assumption.
      reflexivity.
  - rewrite compile_concat_tokens.
    + rewrite Eright, Ea, Eb, Ec.
      apply (evalRPN_of_postfix funcs vars ([a] ++ ([b] ++ [c] ++ [o2]) ++ [o1])).
      exact (postfix_binary funcs vars _ _ _ _ o1 Xa
               (postfix_binary funcs vars _ _ _ _ o2 Xb Xc B2 F2) B1 F1).
    + cbn [separated starts_special]. rewrite Wa, Wb, Wc, T1, T2.
      destruct (special_token a), (special_token b), (special_token c); reflexivity.
    + cbn [forallb]. now rewrite Sa, Sb, Sc, S1, S2.
    + unfold checkParenthesis. rewrite checkParenthesis_loop_tokens. cbn [fold_left].
      rewrite (checkParenthesis_loop_free c), (checkParenthesis_loop_free o2),
        (checkParenthesis_loop_free b) by assumption.
      rewrite (checkParenthesis_loop_free o1), (checkParenthesis_loop_free a)
        by assumption.
      reflexivity.
Qed.

Lemma plain_operand (token : string) :
  plain token = true -> isFunction funcs token = None -> operand funcs token.
Proof.
  intros Hplain Hfun. right. split; [exact Hfun|].
  split; [|split; intros ->; discriminate].
  destruct (isOperator token) eqn:Hop; [|reflexivity].
  apply isOperator_cases in Hop as [Hop| ->]; [|discriminate].
  apply isBinaryOperator_cases in Hop as [->|[->|[->|[->| ->]]]]; discriminate.
Qed.

(** The converter on [f ( a )], [f] a function or not. *)
Lemma getRPN_call (f a : string) :
  isFunction funcs "(" = None -> isFunction funcs ")" = None ->
  fst (getNumber f) = false -> plain f = true -> operand funcs a ->
  getRPN funcs [f; "("; a; ")"]
  = match isFunction funcs f with
    | Some _ => [emitted a; f]
    | None => [f; emitted a]
    end.
Proof.
  intros Hopen Hclose Hnum Hplain Ha.
  unfold getRPN, getRPN_loop. cbn [fold_left].
  destruct (isFunction funcs f) as [func|] eqn:Hfun.
  - rewrite (getRPN_step_function funcs f func _ _ Hnum Hfun).
    rewrite (getRPN_step_open funcs _ _ Hopen).
    rewrite (getRPN_step_operand _ _ _ _ Ha).
    rewrite (getRPN_step_close funcs _ _ Hclose).
    cbn [pop_to_paren String.eqb Ascii.eqb Bool.eqb negb app]. now rewrite Hfun.
  - pose proof (plain_operand f Hplain Hfun) as Hf.
    rewrite (getRPN_step_operand _ _ _ _ Hf).
    assert (Ef : emitted f = f) by (unfold emitted; now rewrite Hnum).
    rewrite Ef, (getRPN_step_open funcs _ _ Hopen).
    rewrite (getRPN_step_operand _ _ _ _ Ha).
    rewrite (getRPN_step_close funcs _ _ Hclose). reflexivity.
Qed.

Lemma call_text_compiles (f a : string) :
  plain f = true -> word a = true -> free_of " " a = true ->
  free_of "()" a = true ->
  separated [f; "("; a; ")"] = true
  /\ forallb (free_of " ") [f; "("; a; ")"] = true
  /\ checkParenthesis (concat_tokens [f; "("; a; ")"]) = true.
Proof.
  intros Hplain Wa Sa Pa. apply plain_word in Hplain as (Wf & Sf & Pf).
  split; [|split].
  - cbn [separated starts_special special_token specials mem_char Ascii.eqb
         Bool.eqb orb].
    rewrite Wf, Wa. destruct (special_token f), (special_token a); reflexivity.
  - cbn [forallb]. now rewrite Sf, Sa.
  - unfold checkParenthesis. rewrite checkParenthesis_loop_tokens. cbn [fold_left].
    rewrite (checkParenthesis_loop_free a) by assumption.
    rewrite (checkParenthesis_loop_free f) by assumption. reflexivity.
Qed.

(** X13: a call [f(a)] on a variable [a] evaluates to the function [f] of
    the table applied to the value of [a]; when the word [f] is unknown
    (no function of the table, no number, no variable of the list) the
    call evaluates to the value of [a], without any error. *)
Theorem function_call (f a : string) (va : float) :
  isFunction funcs "(" = None -> isFunction funcs ")" = None ->
  plain f = true -> fst (getNumber f) = false ->
  variable_token funcs vars a va ->
  (forall func, isFunction funcs f = Some func ->
     eval_vars (Expression_new (concat_tokens [f; "("; a; ")"]) funcs) vars
     = func va)
  /\ (isFunction funcs f = None -> isVariable f vars = None ->
      eval_vars (Expression_new (concat_tokens [f; "("; a; ")"]) funcs) vars = va).
Proof.
  intros Hopen Hclose Hplain Hnum Ha.
  apply variable_token_parts in Ha as (Wa & Sa & Pa & Oa & Ea & Xa).
  destruct (call_text_compiles f a Hplain Wa Sa Pa) as (Hsep & Hspace & Hchk).
  pose proof (getRPN_call f a Hopen Hclose Hnum Hplain Oa) as Hrpn.
  split.
  - intros func Hfun. rewrite (compile_concat_tokens _ Hsep Hspace Hchk), Hrpn, Hfun, Ea.
    apply (evalRPN_of_postfix funcs vars ([a] ++ [f])).
    exact (postfix_function funcs vars _ _ f func Xa Hnum Hfun).
  - intros Hfun Hvar. rewrite (compile_concat_tokens _ Hsep Hspace Hchk), Hrpn, Hfun, Ea.
    destruct (plain_operand f Hplain Hfun) as [Hn | (_ & Hop & _)]; [congruence|].
    pose proof (evalRPN_loop_postfix funcs vars [a] va Xa [] []) as Hloop.
    cbn [app] in Hloop. unfold evalRPN.
    change (evalRPN_loop funcs vars [f; a] [])
      with (match evalRPN_step funcs vars [] f with
            | Some values => evalRPN_loop funcs vars [a] values
            | None => None
            end).
    rewrite evalRPN_step_variable, Hvar by assumption. now rewrite Hloop.
Qed.

(** The converter on [~ a o b], on [a o ~ b] and on [~ a]. *)
Lemma getRPN_negation (a b o : string) :
  isFunction funcs "~" = None ->
  operand funcs a -> operand funcs b -> binary_token funcs o ->
  getRPN funcs ["~"; a; o; b]
  = (if pops "~" o then [emitted a; "~"; emitted b; o]
     else [emitted a; emitted b; o; "~"])
  /\ getRPN funcs [a; o; "~"; b] = [emitted a; emitted b; "~"; o]
  /\ getRPN funcs ["~"; a] = [emitted a; "~"].
Proof.
  intros Hneg Ha Hb [Hbin Hfun].
  pose proof (isBinaryOperator_special _ Hbin) as (_ & _ & _ & Ho).
  pose proof (isBinaryOperator_isOperator _ Hbin) as Hop.
  assert (Hkeep : pops o "~" = false).
  { apply isBinaryOperator_cases in Hbin as [->|[->|[->|[->| ->]]]]; reflexivity. }
  split; [|split]; unfold getRPN, getRPN_loop; cbn [fold_left].
  - rewrite (getRPN_step_operator funcs "~" _ _ eq_refl Hneg).
    cbn [pop_operators fst snd].
    rewrite (getRPN_step_operand _ _ _ _ Ha).
    rewrite (getRPN_step_operator funcs o _ _ Hop Hfun).
    cbn [pop_operators app]. destruct (pops "~" o); cbn [fst snd app];
      rewrite (getRPN_step_operand _ _ _ _ Hb); cbn [pop_all app]; now rewrite Ho.
  - rewrite (getRPN_step_operand _ _ _ _ Ha).
    rewrite (getRPN_step_operator funcs o _ _ Hop Hfun).
    cbn [pop_operators fst snd app].
    rewrite (getRPN_step_operator funcs "~" _ _ eq_refl Hneg).
    cbn [pop_operators]. rewrite Hkeep. cbn [fst snd].
    rewrite (getRPN_step_operand _ _ _ _ Hb). cbn [pop_all app]. now rewrite Ho.
  - rewrite (getRPN_step_operator funcs "~" _ _ eq_refl Hneg).
    cbn [pop_operators fst snd].
    now rewrite (getRPN_step_operand _ _ _ _ Ha).
Qed.

(** X14: the unary [~] binds tighter than [+], [-], [*] and [/] and
    looser than [^]: for variables [a], [b] and a binary operator [o],
    the text [~a o b] evaluates to [-(a ^ b)] when [o] is [^] and to
    [(-a) o b] otherwise; [a o ~b] evaluates to [a o (-b)], and [~a] to
    [-a]. *)
Theorem negation_binding (a b o : string) (va vb : float) :
  isFunction funcs "~" = None ->
  variable_token funcs vars a va ->
  variable_token funcs vars b vb ->
  binary_token funcs o ->
  eval_vars (Expression_new (concat_tokens ["~"; a; o; b]) funcs) vars
  = (if (o =? "^")%string then (- calculate va vb o)%float
     else calculate (- va)%float vb o)
  /\ eval_vars (Expression_new (concat_tokens [a; o; "~"; b]) funcs) vars
     = calculate va (- vb)%float o
  /\ eval_vars (Expression_new (concat_tokens ["~"; a]) funcs) vars = (- va)%float.
Proof.
  intros Hneg Ha Hb Ho.
  apply variable_token_parts in Ha as (Wa & Sa & Pa & Oa & Ea & Xa).
  apply variable_token_parts in Hb as (Wb & Sb & Pb & Ob & Eb & Xb).
  pose proof (isBinaryOperator_special _ (proj1 Ho)) as (To & So & Po & _).
  destruct (getRPN_negation a b o Hneg Oa Ob Ho) as (E1 & E2 & E3).
  destruct Ho as [Bo Fo].
  assert (Hpops : pops "~" o = negb (o =? "^")%string).
  { apply isBinaryOperator_cases in Bo as [->|[->|[->|[->| ->]]]]; reflexivity. }
  assert (Hna : postfix funcs vars ([a] ++ ["~"]) (- va)%float)
    by now apply postfix_negation.
  assert (Hnb : postfix funcs vars ([b] ++ ["~"]) (- vb)%float)
    by now apply postfix_negation.
  split; [|split]; rewrite compile_concat_tokens.
  - rewrite E1, Hpops, Ea, Eb. destruct (o =? "^")%string; cbn [negb].
    + apply (evalRPN_of_postfix funcs vars (([a] ++ [b] ++ [o]) ++ ["~"])).
      apply postfix_negation; [|exact Hneg].
      exact (postfix_binary funcs vars _ _ _ _ o Xa Xb Bo Fo).
    + apply (evalRPN_of_postfix funcs vars (([a] ++ ["~"]) ++ [b] ++ [o])).
      exact (postfix_binary funcs vars _ _ _ _ o Hna Xb Bo Fo).
  - cbn [separated starts_special special_token specials mem_char Ascii.eqb
         Bool.eqb orb].
    rewrite Wa, Wb, To. destruct (special_token a), (special_token b); reflexivity.
  - cbn [forallb]. now rewrite Sa, Sb, So.
  - apply checkParenthesis_flat. cbn [forallb]. now rewrite Pa, Pb, Po.
  - rewrite E2, Ea, Eb.
    apply (evalRPN_of_postfix funcs vars ([a] ++ ([b] ++ ["~"]) ++ [o])).
    exact (postfix_binary funcs vars _ _ _ _ o Xa Hnb Bo Fo).
  - cbn [separated starts_special special_token specials mem_char Ascii.eqb
         Bool.eqb orb].
    rewrite Wa, Wb, To. destruct (special_token a), (special_token b); reflexivity.
  - cbn [forallb]. now rewrite Sa, Sb, So.
  - apply checkParenthesis_flat. cbn [forallb]. now rewrite Pa, Pb, Po.
  - rewrite E3, Ea. now apply (evalRPN_of_postfix funcs vars ([a] ++ ["~"])).
  - cbn [separated starts_special special_token specials mem_char Ascii.eqb
         Bool.eqb orb].
    rewrite Wa. destruct (special_token a); reflexivity.
  - cbn [forallb]. now rewrite Sa.
  - apply checkParenthesis_flat. cbn [forallb]. now rewrite Pa.
Qed.

End Compositions.

(** ** Malformed postfix sequences *)

Section Malformed.

Context {libm : Libm}.
Variable funcs : list CustomFunction.t.
Variable vars : list Var.t.

(** X15: what [evalRPN] makes of a malformed sequence.  Two well-formed
    sequences in a row leave two values and give [NAN]; a binary operator
    in front of a well-formed sequence, or behind it, finds fewer than
    two values and is ignored, and so is a [~] in front: the value is
    that of the sequence. *)
Theorem evalRPN_malformed (p q : list string) (v w : float) (op : string) :
  postfix funcs vars p v -> postfix funcs vars q w -> binary_token funcs op ->
  isFunction funcs "~" = None ->
  evalRPN funcs (p ++ q) vars = NAN
  /\ evalRPN funcs (op :: p) vars = v
  /\ evalRPN funcs (p ++ [op]) vars = v
  /\ evalRPN funcs ("~" :: p) vars = v.
Proof.
  intros Hp Hq [Hbin Hfun] Hneg.
  pose proof (evalRPN_loop_postfix funcs vars p v Hp) as Lp.
  pose proof (evalRPN_loop_postfix funcs vars q w Hq) as Lq.
  pose proof (isBinaryOperator_isOperator _ Hbin) as Hop.
  assert (Hskip : forall values, (List.length values < 2)%nat ->
            evalRPN_step funcs vars values op = Some values).
  { intros values Hlen. rewrite (evalRPN_step_operator funcs vars op values Hop Hfun).
    rewrite Hbin, (isBinaryOperator_not_unary _ Hbin).
    destruct values as [|x [|y values]]; try reflexivity. simpl in Hlen. lia. }
  unfold evalRPN. repeat split.
  - rewrite Lp. specialize (Lq [] [v]). rewrite app_nil_r in Lq. now rewrite Lq.
  - cbn [evalRPN_loop]. rewrite Hskip by (simpl; lia).
    specialize (Lp [] []). rewrite app_nil_r in Lp. now rewrite Lp.
  - rewrite Lp. cbn [evalRPN_loop]. now rewrite Hskip by (simpl; lia).
  - cbn [evalRPN_loop].
    rewrite (evalRPN_step_operator funcs vars "~" [] eq_refl Hneg).
    cbn [isBinaryOperator isUnaryOperator String.eqb Ascii.eqb Bool.eqb orb andb
         List.length Nat.ltb Nat.leb].
    specialize (Lp [] []). rewrite app_nil_r in Lp. now rewrite Lp.
Qed.

End Malformed.

(** ** The tables *)

Lemma isFunction_absent (funcs : list CustomFunction.t) (name : string) :
  isFunction funcs name = None
  <-> forall u, In u funcs -> CustomFunction.name u <> name.
Proof.
  induction funcs as [|f funcs IH]; cbn [isFunction].
  - split; [intros _ u [] | reflexivity].
  - destruct (String.eqb_spec (CustomFunction.name f) name) as [E|Hne].
    + split; [discriminate|]. intros H. exfalso. apply (H f); [now left | exact E].
    + rewrite IH. split.
      * intros H u [<- | Hu]; [exact Hne | now apply H].
      * intros H u Hu. apply H. now right.
Qed.

(** X16: [isFunction] looks a name up in the table given to the
    constructor and in nothing else: it fails exactly when no entry has
    the name, and otherwise returns the function of the first entry that
    has it. *)
Theorem isFunction_lookup (funcs : list CustomFunction.t) (name : string) :
  (isFunction funcs name = None
   <-> forall u, In u funcs -> CustomFunction.name u <> name)
  /\ (forall fs1 f fs2,
        funcs = fs1 ++ f :: fs2 -> CustomFunction.name f = name ->
        (forall u, In u fs1 -> CustomFunction.name u <> name) ->
        isFunction funcs name = Some (CustomFunction.f f)).
Proof.
  split; [apply isFunction_absent|].
  intros fs1 f fs2 -> Hname Hfirst.
  induction fs1 as [|u fs1 IH]; cbn [app isFunction].
  - apply String.eqb_eq in Hname. now rewrite Hname.
  - assert (E : (CustomFunction.name u =? name)%string = false)
      by (apply String.eqb_neq, Hfirst; now left).
    rewrite E. apply IH. intros w Hw. apply Hfirst. now right.
Qed.

(** X17: [isVariable] returns the value of the first entry of the list
    that has the name, for every name that is no operator; entries
    before it count only if the name is theirs, plain or behind [~]. *)
Theorem isVariable_lookup (vars1 vars2 : list Var.t) (name : string) (v : float) :
  isOperator name = false ->
  (forall u, In u vars1 ->
     Var.name u <> name /\ ("~" ++ Var.name u)%string <> name) ->
  isVariable name (vars1 ++ Var.mk name v :: vars2) = Some v.
Proof.
  intros Hop Hfirst. unfold isVariable. rewrite Hop.
  induction vars1 as [|u vars1 IH]; cbn [app isVariable_loop Var.name Var.val].
  - now rewrite String.eqb_refl.
  - destruct (Hfirst u (or_introl eq_refl)) as [H1 H2].
    apply String.eqb_neq in H1, H2. rewrite H1, H2.
    apply IH. intros w Hw. apply Hfirst. now right.
Qed.

(** ** Instances at the reference math library *)

#[local] Existing Instance RefLibm.libm.

Lemma unbalanced_is_undefined_witness :
  unbalanced "(1+2"
  /\ tokens (Expression_of "(1+2") = []
  /\ eval (Expression_of ")1+2(") = NAN.
Proof.
  assert (H1 : unbalanced "(1+2") by (right; vm_compute; discriminate).
  assert (H2 : unbalanced ")1+2(") by (left; exists 1%nat; vm_compute; reflexivity).
  split; [exact H1|]. split.
  - exact (proj1 (unbalanced_is_undefined "(1+2" defaultFunctions H1)).
  - exact (proj1 (proj2 (proj2 (proj2
      (unbalanced_is_undefined ")1+2(" defaultFunctions H2))))).
Defined.

Lemma binary_operator_step_witness :
  isBinaryOperator "-" = true
  /\ isFunction defaultFunctions "-" = None
  /\ evalRPN_step defaultFunctions [] [1; 3]%float "-" = Some [2]%float
  /\ evalRPN_loop defaultFunctions [] ["-"; "5"] [3]%float = Some [5; 3]%float.
Proof.
  pose proof (binary_operator_step defaultFunctions [] "-" [1; 3]%float
                eq_refl eq_refl) as [Hpop _].
  pose proof (binary_operator_step defaultFunctions [] "-" [3]%float
                eq_refl eq_refl) as [_ [Hskip _]].
  split; [reflexivity|]. split; [reflexivity|]. split.
  - rewrite (Hpop _ _ _ eq_refl). reflexivity.
  - destruct (Hskip ltac:(simpl; lia)) as [_ Hnext]. rewrite Hnext. reflexivity.
Defined.

Lemma function_step_witness :
  fst (getNumber "half") = false
  /\ isFunction [CustomFunction.mk "half" (fun x => x / 2)%float] "half"
     = Some (fun x => x / 2)%float
  /\ evalRPN [CustomFunction.mk "half" (fun x => x / 2)%float] ["half"; "1"] [] = NAN
  /\ evalRPN_step [CustomFunction.mk "half" (fun x => x / 2)%float] [] [4]%float "half"
     = Some [2]%float.
Proof.
  pose proof (function_step [CustomFunction.mk "half" (fun x => x / 2)%float] []
                "half" (fun x => x / 2)%float eq_refl eq_refl) as [_ [Hret Hpop]].
  split; [reflexivity|]. split; [reflexivity|]. split.
  - exact (Hret [] ["1"] eq_refl).
  - rewrite Hpop. reflexivity.
Defined.

Lemma evalRPN_result_witness :
  evalRPN_loop defaultFunctions [] ["1"; "2"; "+"] [] = Some [3]%float
  /\ evalRPN defaultFunctions ["1"; "2"; "+"] [] = 3%float
  /\ evalRPN_loop defaultFunctions [] ["1"; "2"] [] = Some [2; 1]%float
  /\ evalRPN defaultFunctions ["1"; "2"] [] = NAN.
Proof.
  assert (H1 : evalRPN_loop defaultFunctions [] ["1"; "2"; "+"] [] = Some [3]%float)
    by reflexivity.
  assert (H2 : evalRPN_loop defaultFunctions [] ["1"; "2"] [] = Some [2; 1]%float)
    by reflexivity.
  split; [exact H1|]. split.
  - exact (proj1 (evalRPN_result defaultFunctions [] _ _ H1) _ eq_refl).
  - split; [exact H2|].
    apply (proj2 (evalRPN_result defaultFunctions [] _ _ H2)). simpl. lia.
Defined.

Lemma isVariable_negated_name_witness :
  isVariable "~pi" (Var.mk "x" 1 :: defaultVariables)
  = Some (- 0x1.921fb6p+1)%float.
Proof.
  apply (isVariable_negated_name [Var.mk "x" 1%float] [Var.mk "e" _] "pi").
  - discriminate.
  - intros u [<- | []]. split; discriminate.
Defined.

(** C9, as stated, fails: an entry of the list is shadowed by an earlier
    entry of the same name, and the empty name gives the token ["~"],
    which is an operator and never a variable. *)
Lemma isVariable_negated_name_counterexample :
  In (Var.mk "pi" 2) [Var.mk "pi" 1; Var.mk "pi" 2]
  /\ isVariable ("~" ++ "pi") [Var.mk "pi" 1; Var.mk "pi" 2] = Some (-1)%float
  /\ isVariable ("~" ++ "pi") [Var.mk "pi" 1; Var.mk "pi" 2] <> Some (- 2)%float
  /\ In (Var.mk "" 1) [Var.mk "" 1]
  /\ isVariable ("~" ++ "") [Var.mk "" 1] = None.
Proof.
  split; [right; left; reflexivity|]. split; [reflexivity|]. split.
  - intros H.
    apply (f_equal (fun o => match o with
                             | Some x => PrimFloat.eqb x (-1)
                             | None => false
                             end)) in H.
    vm_compute in H. discriminate.
  - split; [left|]; reflexivity.
Qed.

Lemma eval_vars_without_defaults_witness :
  unnamed "pi" [Var.mk "a" 1]
  /\ eval_vars (Expression_of "pi") [Var.mk "a" 1] = NAN.
Proof.
  assert (H : unnamed "pi" [Var.mk "a" 1%float])
    by (intros v [<- | []]; discriminate).
  split; [exact H|].
  exact (proj1 (proj2 (proj2 (proj2
    (eval_vars_without_defaults "pi" _ (or_introl eq_refl) H))))).
Defined.

(** C1, as stated, fails: with the list [{a: 1.0}] the expression ["pi"]
    evaluates to [NAN], not to the default value of [pi] that [eval()]
    returns. *)
Lemma eval_vars_defaults_counterexample :
  unnamed "pi" [Var.mk "a" 1]
  /\ eval_vars (Expression_of "pi") [Var.mk "a" 1] = NAN
  /\ eval (Expression_of "pi") = 0x1.921fb6p+1%float
  /\ eval_vars (Expression_of "pi") [Var.mk "a" 1] <> eval (Expression_of "pi").
Proof.
  split; [intros v [<- | []]; discriminate|].
  split; [reflexivity|]. split; [reflexivity|].
  intros H. apply (f_equal PrimFloat.is_nan) in H. vm_compute in H. discriminate.
Qed.

(** C8, as stated, fails: a tab is whitespace and is not removed.  The
    text [1<TAB>+2] keeps the tab inside its first token, which is then
    no number and no known variable, and evaluates to 2; with every
    whitespace character deleted it is ["1+2"] and evaluates to 3. *)
Lemma whitespace_counterexample :
  remove_whitespace ("1" ++ String TAB "+2") = "1+2"
  /\ tokens (Expression_of ("1" ++ String TAB "+2")) = [String "1" (String TAB ""); "+"; "2"]
  /\ tokens (Expression_of "1+2") = ["1"; "+"; "2"]
  /\ rpn (Expression_of ("1" ++ String TAB "+2")) = [String "1" (String TAB ""); "2"; "+"]
  /\ rpn (Expression_of "1+2") = ["1"; "2"; "+"]
  /\ eval (Expression_of ("1" ++ String TAB "+2")) = 2%float
  /\ eval (Expression_of "1+2") = 3%float.
Proof.
  repeat split; vm_compute; reflexivity.
Qed.

Lemma right_to_left_power_witness :
  c_pow 3 2 = 9%float
  /\ c_pow 2 9 = 512%float
  /\ eval (Expression_of "2^3^2") = 512%float
  /\ variable_token defaultFunctions [Var.mk "x" 2; Var.mk "y" 3] "x" 2
  /\ variable_token defaultFunctions [Var.mk "x" 2; Var.mk "y" 3] "y" 3
  /\ eval_vars (Expression_of "x^y^x") [Var.mk "x" 2; Var.mk "y" 3] = 512%float.
Proof.
  assert (H9 : c_pow 3 2 = 9%float) by reflexivity.
  assert (H512 : c_pow 2 9 = 512%float) by reflexivity.
  assert (Hx : variable_token defaultFunctions [Var.mk "x" 2; Var.mk "y" 3]%float
                 "x" 2%float) by (repeat split).
  assert (Hy : variable_token defaultFunctions [Var.mk "x" 2; Var.mk "y" 3]%float
                 "y" 3%float) by (repeat split).
  destruct right_to_left_power
    as (_ & _ & _ & _ & _ & _ & _ & Hchain & _ & _ & _ & _ & H).
  split; [exact H9|]. split; [exact H512|].
  split; [exact (proj1 (H H9 H512))|].
  split; [exact Hx|]. split; [exact Hy|].
  pose proof (Hchain defaultFunctions _ "x" "y" "x" _ _ _ eq_refl Hx Hy Hx) as Hxyx.
  cbn [append] in Hxyx. unfold Expression_of. rewrite Hxyx.
  now rewrite H9.
Defined.

Lemma literal_is_reformatted_witness :
  getNumber "1.0000001" = (true, 0x1.000001ad7f29bp+0%float)
  /\ getRPN_step defaultFunctions ([], []) "1.0000001" = (["1"], []).
Proof.
  split; [reflexivity|].
  rewrite (proj1 literal_is_reformatted defaultFunctions "1.0000001" _ [] [] eq_refl).
  reflexivity.
Defined.

Lemma tokens_of_concat_witness :
  separated ["sin"; "("; "x"; ")"] = true
  /\ checkParenthesis "sin(x)" = true
  /\ getTokens "sin(x)" = ["sin"; "("; "x"; ")"].
Proof.
  split; [reflexivity|]. split; [reflexivity|].
  exact (tokens_of_concat ["sin"; "("; "x"; ")"] eq_refl eq_refl).
Defined.

Lemma checkParenthesis_decides_witness :
  Z.of_nat (String.length "(1+2)") < 2 ^ 31
  /\ (checkParenthesis "(1+2)" = true <-> ~ unbalanced "(1+2)").
Proof.
  assert (H : Z.of_nat (String.length "(1+2)") < 2 ^ 31) by reflexivity.
  split; [exact H | exact (checkParenthesis_decides "(1+2)" H)].
Defined.

Lemma evalRPN_postfix_witness :
  postfix defaultFunctions [] ["1"; "2"; "+"; "~"] (- (1 + 2))%float
  /\ evalRPN defaultFunctions ["1"; "2"; "+"; "~"] [] = (-3)%float.
Proof.
  assert (H1 : postfix defaultFunctions [] ["1"] 1%float)
    by (constructor; intros values; reflexivity).
  assert (H2 : postfix defaultFunctions [] ["2"] 2%float)
    by (constructor; intros values; reflexivity).
  assert (H : postfix defaultFunctions [] ["1"; "2"; "+"; "~"] (- (1 + 2))%float)
    by exact (postfix_negation _ _ _ _
                (postfix_binary _ _ _ _ _ _ "+" H1 H2 eq_refl eq_refl) eq_refl).
  split; [exact H|].
  rewrite (evalRPN_postfix defaultFunctions [] _ _ H). reflexivity.
Defined.

Lemma unresolved_symbol_dropped_witness :
  isVariable "y" defaultVariables = None
  /\ evalRPN defaultFunctions ["1"; "y"; "2"; "+"] defaultVariables = 3%float.
Proof.
  split; [reflexivity|].
  rewrite (unresolved_symbol_dropped defaultFunctions defaultVariables "y"
             ["1"; "y"; "2"; "+"] eq_refl eq_refl eq_refl eq_refl).
  reflexivity.
Defined.

Lemma unused_variable_witness :
  ~ In "t" ["pi"; "2"; "*"] /\ ~ In "~t" ["pi"; "2"; "*"]
  /\ evalRPN defaultFunctions ["pi"; "2"; "*"] (Var.mk "t" 5 :: defaultVariables)
     = evalRPN defaultFunctions ["pi"; "2"; "*"] defaultVariables.
Proof.
  assert (H1 : ~ In "t" ["pi"; "2"; "*"])
    by (intros [H|[H|[H|[]]]]; discriminate).
  assert (H2 : ~ In "~t" ["pi"; "2"; "*"])
    by (intros [H|[H|[H|[]]]]; discriminate).
  split; [exact H1|]. split; [exact H2|].
  exact (unused_variable defaultFunctions ["pi"; "2"; "*"] [] defaultVariables
           (Var.mk "t" 5%float) H1 H2).
Defined.

Lemma getRPN_keeps_tokens_witness :
  isFunction defaultFunctions "(" = None
  /\ isFunction defaultFunctions ")" = None
  /\ Permutation ["1"; "2"; "+"; "3"; "*"] ["1"; "+"; "2"; "*"; "3"].
Proof.
  split; [reflexivity|]. split; [reflexivity|].
  exact (getRPN_keeps_tokens defaultFunctions eq_refl eq_refl
           ["("; "1"; "+"; "2"; ")"; "*"; "3"]).
Defined.

Lemma getRPN_no_parenthesis_witness :
  isFunction defaultFunctions "(" = None
  /\ isFunction defaultFunctions ")" = None
  /\ List.length (getRPN defaultFunctions ["("; "1"; "+"; "2"; ")"; "*"; "3"]) = 5%nat.
Proof.
  split; [reflexivity|]. split; [reflexivity|].
  rewrite (proj2 (getRPN_no_parenthesis defaultFunctions
                    ["("; "1"; "+"; "2"; ")"; "*"; "3"] eq_refl eq_refl)).
  reflexivity.
Defined.

Lemma binary_chain_grouping_witness :
  variable_token defaultFunctions [Var.mk "x" 2; Var.mk "y" 3] "x" 2
  /\ variable_token defaultFunctions [Var.mk "x" 2; Var.mk "y" 3] "y" 3
  /\ binary_token defaultFunctions "+" /\ binary_token defaultFunctions "*"
  /\ eval_vars (Expression_of "x+y*x") [Var.mk "x" 2; Var.mk "y" 3] = 8%float
  /\ eval_vars (Expression_of "x*y+x") [Var.mk "x" 2; Var.mk "y" 3] = 8%float
  /\ eval_vars (Expression_of "x-y-x") [Var.mk "x" 2; Var.mk "y" 3] = (-3)%float.
Proof.
  assert (Hx : variable_token defaultFunctions [Var.mk "x" 2; Var.mk "y" 3]%float
                 "x" 2%float) by (repeat split).
  assert (Hy : variable_token defaultFunctions [Var.mk "x" 2; Var.mk "y" 3]%float
                 "y" 3%float) by (repeat split).
  assert (Hadd : binary_token defaultFunctions "+") by (split; reflexivity).
  assert (Hmul : binary_token defaultFunctions "*") by (split; reflexivity).
  assert (Hsub : binary_token defaultFunctions "-") by (split; reflexivity).
  split; [exact Hx|]. split; [exact Hy|]. split; [exact Hadd|]. split; [exact Hmul|].
  pose proof (binary_chain_grouping defaultFunctions _ "x" "y" "x" "+" "*" _ _ _
                Hx Hy Hx Hadd Hmul) as E1.
  pose proof (binary_chain_grouping defaultFunctions _ "x" "y" "x" "*" "+" _ _ _
                Hx Hy Hx Hmul Hadd) as E2.
  pose proof (binary_chain_grouping defaultFunctions _ "x" "y" "x" "-" "-" _ _ _
                Hx Hy Hx Hsub Hsub) as E3.
  cbn [concat_tokens append] in E1, E2, E3. unfold Expression_of.
  rewrite E1, E2, E3. repeat split.
Defined.

Lemma parentheses_group_witness :
  eval_vars (Expression_of "(x+y)*x") [Var.mk "x" 2; Var.mk "y" 3] = 10%float
  /\ eval_vars (Expression_of "x*(y+x)") [Var.mk "x" 2; Var.mk "y" 3] = 10%float.
Proof.
  assert (Hx : variable_token defaultFunctions [Var.mk "x" 2; Var.mk "y" 3]%float
                 "x" 2%float) by (repeat split).
  assert (Hy : variable_token defaultFunctions [Var.mk "x" 2; Var.mk "y" 3]%float
                 "y" 3%float) by (repeat split).
  assert (Hadd : binary_token defaultFunctions "+") by (split; reflexivity).
  assert (Hmul : binary_token defaultFunctions "*") by (split; reflexivity).
  pose proof (parentheses_group defaultFunctions _ "x" "y" "x" "+" "*" _ _ _
                eq_refl eq_refl Hx Hy Hx Hadd Hmul) as [E1 _].
  pose proof (parentheses_group defaultFunctions _ "x" "y" "x" "*" "+" _ _ _
                eq_refl eq_refl Hx Hy Hx Hmul Hadd) as [_ E2].
  cbn [concat_tokens append] in E1, E2. unfold Expression_of.
  rewrite E1, E2. split; reflexivity.
Defined.

Lemma function_call_witness :
  eval_vars (Expression_new "half(x)" [CustomFunction.mk "half" (fun x => x / 2)%float])
            [Var.mk "x" 4] = 2%float
  /\ eval_vars (Expression_new "sin(x)" [CustomFunction.mk "half" (fun x => x / 2)%float])
               [Var.mk "x" 4] = 4%float.
Proof.
  assert (Hx : variable_token [CustomFunction.mk "half" (fun x => x / 2)%float]
                 [Var.mk "x" 4%float] "x" 4%float) by (repeat split).
  pose proof (function_call [CustomFunction.mk "half" (fun x => x / 2)%float] _
                "half" "x" _ eq_refl eq_refl eq_refl eq_refl Hx) as [E1 _].
  pose proof (function_call [CustomFunction.mk "half" (fun x => x / 2)%float] _
                "sin" "x" _ eq_refl eq_refl eq_refl eq_refl Hx) as [_ E2].
  cbn [concat_tokens append] in E1, E2.
  rewrite (E1 _ eq_refl), (E2 eq_refl eq_refl). split; reflexivity.
Defined.

Lemma negation_binding_witness :
  eval_vars (Expression_of "~x+y") [Var.mk "x" 2; Var.mk "y" 3] = 1%float
  /\ eval_vars (Expression_of "x*~y") [Var.mk "x" 2; Var.mk "y" 3] = (-6)%float
  /\ eval_vars (Expression_of "~x") [Var.mk "x" 2; Var.mk "y" 3] = (-2)%float.
Proof.
  assert (Hx : variable_token defaultFunctions [Var.mk "x" 2; Var.mk "y" 3]%float
                 "x" 2%float) by (repeat split).
  assert (Hy : variable_token defaultFunctions [Var.mk "x" 2; Var.mk "y" 3]%float
                 "y" 3%float) by (repeat split).
  assert (Hadd : binary_token defaultFunctions "+") by (split; reflexivity).
  assert (Hmul : binary_token defaultFunctions "*") by (split; reflexivity).
  pose proof (negation_binding defaultFunctions _ "x" "y" "+" _ _
                eq_refl Hx Hy Hadd) as (E1 & _ & E3).
  pose proof (negation_binding defaultFunctions _ "x" "y" "*" _ _
                eq_refl Hx Hy Hmul) as (_ & E2 & _).
  cbn [concat_tokens append] in E1, E2, E3. unfold Expression_of.
  rewrite E1, E2, E3. repeat split.
Defined.

Lemma evalRPN_malformed_witness :
  evalRPN defaultFunctions ["1"; "2"] [] = NAN
  /\ evalRPN defaultFunctions ["+"; "1"] [] = 1%float
  /\ evalRPN defaultFunctions ["1"; "+"] [] = 1%float.
Proof.
  assert (H1 : postfix defaultFunctions [] ["1"] 1%float)
    by (constructor; intros values; reflexivity).
  assert (H2 : postfix defaultFunctions [] ["2"] 2%float)
    by (constructor; intros values; reflexivity).
  assert (Hadd : binary_token defaultFunctions "+") by (split; reflexivity).
  destruct (evalRPN_malformed defaultFunctions [] ["1"] ["2"] _ _ "+"
              H1 H2 Hadd eq_refl) as (E1 & E2 & E3 & _).
  split; [exact E1|]. split; [exact E2 | exact E3].
Defined.

Lemma isVariable_lookup_witness :
  isVariable "e" (Var.mk "e" 1 :: defaultVariables) = Some 1%float.
Proof.
  apply (isVariable_lookup [] defaultVariables "e" 1%float eq_refl).
  intros u [].
Defined.

Lemma recompile_printable_witness :
  isBalanced (Expression_of "2 * (x + 1)") = true
  /\ str (Expression_of "2 * (x + 1)") = "2 * ( x + 1 ) "
  /\ Expression_new "2 * ( x + 1 ) " defaultFunctions = Expression_of "2 * (x + 1)".
Proof.
  split; [reflexivity|]. split; [reflexivity|].
  exact (recompile_printable "2 * (x + 1)" defaultFunctions eq_refl).
Defined.
